(** * xnumon: the log event serializers of logevt.c

    A shallow embedding of [logevt.c], the compilation unit that decides the
    structure and content of every log record and drives it through the
    configured log format engine ([logfmt_t], a table of function pointers).

    The engine is write-only from the point of view of this unit: no result of
    an engine call is ever read back.  A serializer is therefore modelled as
    the sequence of engine calls it issues, together with its own outcome:
    the value it returns, or nothing when an [assert] stops the process. *)

From Stdlib Require Import ZArith List String Bool Lia.
From Stdlib Require Import Strings.Byte.
Import ListNotations.
Local Open Scope string_scope.
Local Open Scope list_scope.
Local Open Scope Z_scope.

Set Implicit Arguments.
Set Warnings "-register-all".

(** ** The log format engine interface *)

Record timespec := { tv_sec : Z; tv_nsec : Z }.

(** One constructor per function pointer of [logfmt_t] used by [logevt.c]. *)
Inductive call : Type :=
| RecordBegin
| RecordEnd
| DictBegin
| DictEnd
| DictItem (label : string)
| ListBegin
| ListEnd
| ListItem (label : string)
| ValueNull
| ValueBool (b : bool)
| ValueInt (i : Z)
| ValueUint (u : Z)
| ValueUintOct (u : Z)
| ValueTimespec (tv : timespec)
| ValueTtydev (dev : Z)
| ValueBufHex (buf : list byte) (sz : Z)
| ValueString (s : string).

Definition trace := list call.

(** ** Calls issued and outcome

    [M A] pairs the engine calls issued so far with the outcome: [Some a] when
    the C function returned [a], [None] when an [assert] failed (the calls
    issued before the failing assertion stay in the trace). *)

Definition M (A : Type) : Type := (trace * option A)%type.

Definition calls {A} (m : M A) : trace := fst m.
Definition outcome {A} (m : M A) : option A := snd m.
Definition returned {A} (m : M A) : bool :=
  match outcome m with Some _ => true | None => false end.

Definition ret {A} (a : A) : M A := ([], Some a).
Definition emit (c : call) : M unit := ([c], Some tt).

(** [assert(e)] of <assert.h>, with assertions compiled in. *)
Definition assert (e : bool) : M unit := ([], if e then Some tt else None).

(** Statement sequencing: the second statement runs only if the first one
    returned. *)
Definition seq {B} (m : M unit) (k : M B) : M B :=
  match snd m with
  | Some _ => (fst m ++ fst k, snd k)
  | None => (fst m, None)
  end.

Notation "a ;; b" := (seq a b) (at level 61, right associativity).

Definition skip : M unit := ret tt.

(** [if (c) { body }] without an else branch *)
Definition when (c : bool) (body : M unit) : M unit :=
  if c then body else skip.

(** [if (p) { body }] on a pointer that may be NULL *)
Definition when_some {A} (p : option A) (body : A -> M unit) : M unit :=
  match p with Some a => body a | None => skip end.

(** A loop over the elements of an array, in index order. *)
Fixpoint for_each {A} (l : list A) (body : A -> M unit) : M unit :=
  match l with
  | [] => skip
  | a :: l' => body a ;; for_each l' body
  end.

(** The function pointers, as statements. *)
Definition record_begin : M unit := emit RecordBegin.
Definition record_end : M unit := emit RecordEnd.
Definition dict_begin : M unit := emit DictBegin.
Definition dict_end : M unit := emit DictEnd.
Definition dict_item (label : string) : M unit := emit (DictItem label).
Definition list_begin : M unit := emit ListBegin.
Definition list_end : M unit := emit ListEnd.
Definition list_item (label : string) : M unit := emit (ListItem label).
Definition value_null : M unit := emit ValueNull.
Definition value_bool (b : bool) : M unit := emit (ValueBool b).
Definition value_int (i : Z) : M unit := emit (ValueInt i).
Definition value_uint (u : Z) : M unit := emit (ValueUint u).
Definition value_uint_oct (u : Z) : M unit := emit (ValueUintOct u).
Definition value_timespec (tv : timespec) : M unit := emit (ValueTimespec tv).
Definition value_ttydev (dev : Z) : M unit := emit (ValueTtydev dev).
Definition value_buf_hex (buf : list byte) (sz : Z) : M unit :=
  emit (ValueBufHex buf sz).
Definition value_string (s : string) : M unit := emit (ValueString s).

(** ** Integer types *)

(** [size_t] on the 64-bit platforms xnumon runs on. *)
Definition SIZE_MAX : Z := 2 ^ 64 - 1.
Definition size_wrap (z : Z) : Z := z mod 2 ^ 64.

(** [(uid_t)-1] and [(gid_t)-1]: both types are unsigned 32-bit. *)
Definition UID_NONE : Z := 2 ^ 32 - 1.
Definition GID_NONE : Z := 2 ^ 32 - 1.

(** [(dev_t)-1]: [dev_t] is a signed 32-bit integer. *)
Definition DEV_NONE : Z := -1.

(** C truth value of [flags & mask]. *)
Definition has_flag (flags mask : Z) : bool := negb (Z.land flags mask =? 0).

(** ** Data model: the event descriptors read by the serializers *)

Record logevt_header_t := { code : Z; tv : timespec }.

(** Modelled from the spec: [ipaddr.h] is not among the sources; an address
    is kept as its family tag and raw bytes, and is only ever inspected
    through [ipaddr_is_empty] and [ipaddrtoa]. *)
Record ipaddr_t := { family : Z; addr_bytes : list byte }.

Record codesign_t := {
  cs_result : Z;
  cs_origin : Z;
  cs_cdhash : option (list byte);
  cs_cdhashsz : Z;
  cs_ident : option string;
  cs_teamid : option string;
  cs_certcn : option string
}.

Record stat_attr_t := {
  st_mode : Z;
  st_uid : Z;
  st_gid : Z;
  st_size : Z;
  st_mtime : timespec;
  st_ctime : timespec;
  st_btime : timespec
}.

Record hashes_t := {
  md5 : list byte;
  sha1 : list byte;
  sha256 : list byte
}.

Record audit_proc_t := {
  pid : Z;
  auid : Z;
  euid : Z;
  egid : Z;
  ruid : Z;
  rgid : Z;
  sid : Z;
  dev : Z;
  addr : ipaddr_t
}.

(** [image_exec_t].  The two pointers to other image execs, [script] and
    [prev], make the type recursive; a NULL pointer is [None].  [argv] and
    [envv] are NULL-terminated arrays of strings. *)
Inductive image_exec_t : Type := Build_image_exec {
  ie_hdr : logevt_header_t;
  ie_flags : Z;
  ie_pid : Z;
  ie_path : string;
  ie_stat : stat_attr_t;
  ie_hashes : hashes_t;
  ie_codesign : option codesign_t;
  ie_script : option image_exec_t;
  ie_argv : option (list string);
  ie_envv : option (list string);
  ie_cwd : option string;
  ie_fork_tv : timespec;
  ie_subject : audit_proc_t;
  ie_prev : option image_exec_t
}.

Record process_access_t := {
  pa_hdr : logevt_header_t;
  pa_method : string;
  pa_object : audit_proc_t;
  pa_objectpid : Z;
  pa_object_image_exec : option image_exec_t;
  pa_subject : audit_proc_t;
  pa_subject_image_exec : option image_exec_t
}.

Record launchd_add_t := {
  la_hdr : logevt_header_t;
  la_flags : Z;
  la_plist_path : string;
  la_program_rpath : option string;
  la_program_path : option string;
  la_program_argv : option (list string);
  la_subject : audit_proc_t;
  la_subject_image_exec : option image_exec_t
}.

(** [socket_listen_t]; the peer fields of the accept and connect variants
    are absent. *)
Record socket_listen_t := {
  sl_hdr : logevt_header_t;
  sl_protocol : Z;
  sl_sock_addr : ipaddr_t;
  sl_sock_port : Z;
  sl_subject : audit_proc_t;
  sl_subject_image_exec : option image_exec_t
}.

(** [socket_accept_t] and [socket_connect_t] have the same members. *)
Record socket_peer_t := {
  so_hdr : logevt_header_t;
  so_protocol : Z;
  so_sock_addr : ipaddr_t;
  so_sock_port : Z;
  so_peer_addr : ipaddr_t;
  so_peer_port : Z;
  so_subject : audit_proc_t;
  so_subject_image_exec : option image_exec_t
}.
Definition socket_accept_t := socket_peer_t.
Definition socket_connect_t := socket_peer_t.

Record xnumon_ops_t := {
  ops_hdr : logevt_header_t;
  ops_subtype : string
}.

(** [evtloop_stat_t]: the member [st->pm.procs] is the field [pm_procs], and
    so on for every subsystem; [lq_counts] is the array [st->lq.counts] of
    [LOGEVT_SIZE] counters. *)
Record evtloop_stat_t := {
  st_hdr : logevt_header_t;
  el_aupclobbers : Z; el_aueunknowns : Z; el_failedsyscalls : Z;
  el_radar38845422 : Z; el_radar38845422_fatal : Z;
  el_radar38845784 : Z;
  el_radar39267328 : Z; el_radar39267328_fatal : Z;
  el_radar39623812 : Z; el_radar39623812_fatal : Z;
  el_radar42770257 : Z; el_radar42770257_fatal : Z;
  el_radar42783724 : Z; el_radar42783724_fatal : Z;
  el_radar42784847 : Z; el_radar42784847_fatal : Z;
  el_radar42946744 : Z; el_radar42946744_fatal : Z;
  el_radar43151662 : Z; el_radar43151662_fatal : Z;
  el_missingtoken : Z; el_ooms : Z;
  pm_procs : Z; pm_images : Z; pm_liveacq : Z;
  pm_miss_bypid : Z; pm_miss_forksubj : Z; pm_miss_execsubj : Z;
  pm_miss_execinterp : Z; pm_miss_chdirsubj : Z; pm_miss_getcwd : Z;
  pm_ooms : Z;
  pm_pqsize : Z; pm_pqlookup : Z; pm_pqmiss : Z; pm_pqdrop : Z; pm_pqskip : Z;
  hm_recvd : Z; hm_procd : Z; hm_ooms : Z;
  fm_recvd : Z; fm_procd : Z; fm_lpmiss : Z; fm_ooms : Z;
  sm_recvd : Z; sm_procd : Z; sm_ooms : Z;
  ke_cdev_qsize : Z; ke_kauth_visitors : Z; ke_kauth_timeouts : Z;
  ke_kauth_errors : Z; ke_kauth_defers : Z; ke_kauth_denies : Z;
  ap_qlen : Z; ap_qlimit : Z; ap_inserts : Z; ap_reads : Z; ap_drops : Z;
  wq_qsize : Z;
  lq_qsize : Z; lq_counts : list Z; lq_errors : Z;
  ch_used : Z; ch_size : Z; ch_puts : Z; ch_gets : Z;
  ch_hits : Z; ch_misses : Z; ch_invalids : Z;
  cc_used : Z; cc_size : Z; cc_puts : Z; cc_gets : Z;
  cc_hits : Z; cc_misses : Z; cc_invalids : Z;
  cl_used : Z; cl_size : Z; cl_puts : Z; cl_gets : Z;
  cl_hits : Z; cl_misses : Z; cl_invalids : Z
}.

(** A set of strings of the configuration ([setstr_t]); only its size is
    logged. *)
Definition setstr_t := list string.

(** [config_t], the members read by [logevt.c].  The members behind
    [config_events_s], [config_kextlevel_s], [config_envlevel_s], [logdst_s]
    and [logfmt_s] are only reached through these functions and are kept as
    the raw values [events], [kextlevel], [envlevel], [logdst], [logfmt]. *)
Record config_t := {
  cfg_path : string;
  cfg_id : option string;
  launchd_mode : bool;
  debug : bool;
  events : Z;
  stats_interval : Z;
  kextlevel : Z;
  hflags : Z;
  codesign : bool;
  envlevel : Z;
  resolve_users_groups : bool;
  omit_mode : bool;
  omit_size : bool;
  omit_mtime : bool;
  omit_ctime : bool;
  omit_btime : bool;
  omit_sid : bool;
  omit_groups : bool;
  omit_apple_hashes : bool;
  ancestors : Z;
  logdst : Z;
  logfmt : Z;
  logoneline : Z;
  logfile : option string;
  limit_nofile : Z;
  suppress_image_exec_at_start : bool;
  suppress_image_exec_by_ident : setstr_t;
  suppress_image_exec_by_path : setstr_t;
  suppress_image_exec_by_ancestor_ident : setstr_t;
  suppress_image_exec_by_ancestor_path : setstr_t;
  suppress_process_access_by_subject_ident : setstr_t;
  suppress_process_access_by_subject_path : setstr_t;
  suppress_socket_op_localhost : bool;
  suppress_socket_op_by_subject_ident : setstr_t;
  suppress_socket_op_by_subject_path : setstr_t
}.

(** ** What [logevt.c] takes from the other compilation units

    Constants, macros and functions declared in headers that are not part of
    this unit ([logevt.h], [procmon.h], [hashes.h], [codesign.h], [config.h],
    [build.h], [os.h], [sys.h], [str.h], <pwd.h>, <grp.h>).  They are
    parameters of the development: no theorem depends on their values. *)
Record platform := {
  LOGEVT_VERSION : Z;
  EIFLAG_STAT : Z;
  EIFLAG_ATTR : Z;
  EIFLAG_HASHES : Z;
  EIFLAG_PIDLOOKUP : Z;
  LAFLAG_NOSUBJECT : Z;
  HASH_MD5 : Z;
  HASH_SHA1 : Z;
  HASH_SHA256 : Z;
  MD5SZ : Z;
  SHA1SZ : Z;
  SHA256SZ : Z;
  (* name service: [pw_name] / [gr_name] of the entry, or NULL *)
  getpwuid : Z -> option string;
  getgrgid : Z -> option string;
  codesign_result_s : codesign_t -> string;
  codesign_origin_s : codesign_t -> string;
  codesign_is_apple_system : codesign_t -> bool;
  codesign_is_good : codesign_t -> bool;
  ipaddr_is_empty : ipaddr_t -> bool;
  ipaddrtoa : ipaddr_t -> string;
  protocoltoa : Z -> string;
  config_events_s : config_t -> string;
  config_kextlevel_s : config_t -> string;
  config_envlevel_s : config_t -> string;
  hashes_flags_s : Z -> string;
  logdst_s : config_t -> string;
  logfmt_s : config_t -> string;
  setstr_size : setstr_t -> Z;
  build_version : string;
  build_date : string;
  build_info : string;
  os_name : string;
  os_version : string;
  os_build : string
}.

(** ** The serializers *)

Section Logevt.

(** [static config_t *config], set once by [logevt_init]. *)
Variable P : platform.
Variable config : config_t.

Definition logevt_uid (uid : Z) (idlabel namelabel : string) : M unit :=
  dict_item idlabel ;;
  if uid =? UID_NONE then
    value_int (-1)
  else
    value_uint uid ;;
    when (resolve_users_groups config)
      (when_some (getpwuid P uid) (fun pw_name =>
         dict_item namelabel ;;
         value_string pw_name)).

Definition logevt_gid (gid : Z) (idlabel namelabel : string) : M unit :=
  dict_item idlabel ;;
  if gid =? GID_NONE then
    value_int (-1)
  else
    value_uint gid ;;
    when (resolve_users_groups config)
      (when_some (getgrgid P gid) (fun gr_name =>
         dict_item namelabel ;;
         value_string gr_name)).

(** [hdr] is the event itself, which every serializer dereferences:
    [assert(hdr)] holds on every event passed by value. *)
Definition logevt_header (hdr : logevt_header_t) : M unit :=
  assert true ;;
  record_begin ;;
  dict_begin ;;
  dict_item "version" ;;
  value_uint (LOGEVT_VERSION P) ;;
  dict_item "time" ;;
  value_timespec (tv hdr) ;;
  dict_item "eventcode" ;;
  value_uint (code hdr).

Definition logevt_footer : M unit :=
  dict_end ;;
  record_end.

Definition logevt_xnumon_ops (ops : xnumon_ops_t) : M Z :=
  logevt_header (ops_hdr ops) ;;

  dict_item "op" ;;
  value_string (ops_subtype ops) ;;

  dict_item "build" ;;
  dict_begin ;;
  dict_item "version" ;;
  value_string (build_version P) ;;
  dict_item "date" ;;
  value_string (build_date P) ;;
  dict_item "info" ;;
  value_string (build_info P) ;;
  dict_end ;;

  dict_item "config" ;;
  dict_begin ;;
  dict_item "path" ;;
  value_string (cfg_path config) ;;
  dict_item "id" ;;
  match cfg_id config with
  | Some id => value_string id
  | None => value_null
  end ;;
  dict_item "launchd_mode" ;;
  value_bool (launchd_mode config) ;;
  dict_item "debug" ;;
  value_bool (debug config) ;;
  dict_item "events" ;;
  value_string (config_events_s P config) ;;
  dict_item "stats_interval" ;;
  value_uint (stats_interval config) ;;
  dict_item "kextlevel" ;;
  value_string (config_kextlevel_s P config) ;;
  dict_item "hashes" ;;
  value_string (hashes_flags_s P (hflags config)) ;;
  dict_item "codesign" ;;
  value_bool (codesign config) ;;
  dict_item "envlevel" ;;
  value_string (config_envlevel_s P config) ;;
  dict_item "resolve_users_groups" ;;
  value_bool (resolve_users_groups config) ;;
  dict_item "omit_mode" ;;
  value_bool (omit_mode config) ;;
  dict_item "omit_size" ;;
  value_bool (omit_size config) ;;
  dict_item "omit_mtime" ;;
  value_bool (omit_mtime config) ;;
  dict_item "omit_ctime" ;;
  value_bool (omit_ctime config) ;;
  dict_item "omit_btime" ;;
  value_bool (omit_btime config) ;;
  dict_item "omit_sid" ;;
  value_bool (omit_sid config) ;;
  dict_item "omit_groups" ;;
  value_bool (omit_groups config) ;;
  dict_item "omit_apple_hashes" ;;
  value_bool (omit_apple_hashes config) ;;
  dict_item "ancestors" ;;
  (if ancestors config <? SIZE_MAX then
     value_uint (ancestors config)
   else
     value_string "unlimited") ;;
  dict_item "logdst" ;;
  value_string (logdst_s P config) ;;
  dict_item "logfmt" ;;
  value_string (logfmt_s P config) ;;
  dict_item "logoneline" ;;
  (if logoneline config =? -1 then
     value_null
   else
     value_bool (negb (logoneline config =? 0))) ;;
  dict_item "logfile" ;;
  match logfile config with
  | Some file => value_string file
  | None => value_null
  end ;;
  dict_item "limit_nofile" ;;
  value_uint (limit_nofile config) ;;
  dict_item "suppress_image_exec_at_start" ;;
  value_bool (suppress_image_exec_at_start config) ;;
  dict_item "suppress_image_exec_by_ident" ;;
  value_uint (setstr_size P (suppress_image_exec_by_ident config)) ;;
  dict_item "suppress_image_exec_by_path" ;;
  value_uint (setstr_size P (suppress_image_exec_by_path config)) ;;
  dict_item "suppress_image_exec_by_ancestor_ident" ;;
  value_uint (setstr_size P (suppress_image_exec_by_ancestor_ident config)) ;;
  dict_item "suppress_image_exec_by_ancestor_path" ;;
  value_uint (setstr_size P (suppress_image_exec_by_ancestor_path config)) ;;
  dict_item "suppress_process_access_by_subject_ident" ;;
  value_uint
    (setstr_size P (suppress_process_access_by_subject_ident config)) ;;
  dict_item "suppress_process_access_by_subject_path" ;;
  value_uint
    (setstr_size P (suppress_process_access_by_subject_path config)) ;;
  dict_item "suppress_socket_op_localhost" ;;
  value_bool (suppress_socket_op_localhost config) ;;
  dict_item "suppress_socket_op_by_subject_ident" ;;
  value_uint (setstr_size P (suppress_socket_op_by_subject_ident config)) ;;
  dict_item "suppress_socket_op_by_subject_path" ;;
  value_uint (setstr_size P (suppress_socket_op_by_subject_path config)) ;;
  dict_end ;;

  dict_item "system" ;;
  dict_begin ;;
  dict_item "name" ;;
  value_string (os_name P) ;;
  dict_item "version" ;;
  value_string (os_version P) ;;
  dict_item "build" ;;
  value_string (os_build P) ;;
  dict_end ;;

  logevt_footer ;;
  ret 0.

Definition logevt_xnumon_stats (st : evtloop_stat_t) : M Z :=
  logevt_header (st_hdr st) ;;

  dict_item "evtloop" ;;
  dict_begin ;;
  dict_item "aupclobber" ;;
  value_uint (el_aupclobbers st) ;;
  dict_item "aueunknown" ;;
  value_uint (el_aueunknowns st) ;;
  dict_item "failedsyscall" ;;
  value_uint (el_failedsyscalls st) ;;
  dict_item "radar38845422" ;;
  value_uint (el_radar38845422 st) ;;
  dict_item "radar38845422_fatal" ;;
  value_uint (el_radar38845422_fatal st) ;;
  dict_item "radar38845784" ;;
  value_uint (el_radar38845784 st) ;;
  dict_item "radar39267328" ;;
  value_uint (el_radar39267328 st) ;;
  dict_item "radar39267328_fatal" ;;
  value_uint (el_radar39267328_fatal st) ;;
  dict_item "radar39623812" ;;
  value_uint (el_radar39623812 st) ;;
  dict_item "radar39623812_fatal" ;;
  value_uint (el_radar39623812_fatal st) ;;
  dict_item "radar42770257" ;;
  value_uint (el_radar42770257 st) ;;
  dict_item "radar42770257_fatal" ;;
  value_uint (el_radar42770257_fatal st) ;;
  dict_item "radar42783724" ;;
  value_uint (el_radar42783724 st) ;;
  dict_item "radar42783724_fatal" ;;
  value_uint (el_radar42783724_fatal st) ;;
  dict_item "radar42784847" ;;
  value_uint (el_radar42784847 st) ;;
  dict_item "radar42784847_fatal" ;;
  value_uint (el_radar42784847_fatal st) ;;
  dict_item "radar42946744" ;;
  value_uint (el_radar42946744 st) ;;
  dict_item "radar42946744_fatal" ;;
  value_uint (el_radar42946744_fatal st) ;;
  dict_item "radar43151662" ;;
  value_uint (el_radar43151662 st) ;;
  dict_item "radar43151662_fatal" ;;
  value_uint (el_radar43151662_fatal st) ;;
  dict_item "missingtoken" ;;
  value_uint (el_missingtoken st) ;;
  dict_item "oom" ;;
  value_uint (el_ooms st) ;;
  dict_end ;;

  dict_item "procmon" ;;
  dict_begin ;;
  dict_item "actprocs" ;;
  value_uint (pm_procs st) ;;
  dict_item "actexecimages" ;;
  value_uint (pm_images st) ;;
  dict_item "liveacq" ;;
  value_uint (pm_liveacq st) ;;
  dict_item "miss" ;;
  dict_begin ;;
  dict_item "bypid" ;;
  value_uint (pm_miss_bypid st) ;;
  dict_item "forksubj" ;;
  value_uint (pm_miss_forksubj st) ;;
  dict_item "execsubj" ;;
  value_uint (pm_miss_execsubj st) ;;
  dict_item "execinterp" ;;
  value_uint (pm_miss_execinterp st) ;;
  dict_item "chdirsubj" ;;
  value_uint (pm_miss_chdirsubj st) ;;
  dict_item "getcwd" ;;
  value_uint (pm_miss_getcwd st) ;;
  dict_end ;;
  dict_item "oom" ;;
  value_uint (pm_ooms st) ;;
  dict_end ;;

  dict_item "hackmon" ;;
  dict_begin ;;
  dict_item "recvd" ;;
  value_uint (hm_recvd st) ;;
  dict_item "procd" ;;
  value_uint (hm_procd st) ;;
  dict_item "oom" ;;
  value_uint (hm_ooms st) ;;
  dict_end ;;

  dict_item "filemon" ;;
  dict_begin ;;
  dict_item "recvd" ;;
  value_uint (fm_recvd st) ;;
  dict_item "procd" ;;
  value_uint (fm_procd st) ;;
  dict_item "lpmiss" ;;
  value_uint (fm_lpmiss st) ;;
  dict_item "oom" ;;
  value_uint (fm_ooms st) ;;
  dict_end ;;

  dict_item "sockmon" ;;
  dict_begin ;;
  dict_item "recvd" ;;
  value_uint (sm_recvd st) ;;
  dict_item "procd" ;;
  value_uint (sm_procd st) ;;
  dict_item "oom" ;;
  value_uint (sm_ooms st) ;;
  dict_end ;;

  dict_item "kext_cdevq" ;;
  dict_begin ;;
  dict_item "buckets" ;;
  value_uint (ke_cdev_qsize st) ;;
  dict_item "visitors" ;;
  value_uint (ke_kauth_visitors st) ;;
  dict_item "timeout" ;;
  value_uint (ke_kauth_timeouts st) ;;
  dict_item "error" ;;
  value_uint (ke_kauth_errors st) ;;
  dict_item "defer" ;;
  value_uint (ke_kauth_defers st) ;;
  dict_item "deny" ;;
  value_uint (ke_kauth_denies st) ;;
  dict_end ;;

  dict_item "prep_queue" ;;
  dict_begin ;;
  dict_item "buckets" ;;
  value_uint (pm_pqsize st) ;;
  dict_item "lookup" ;;
  value_uint (pm_pqlookup st) ;;
  dict_item "miss" ;;
  value_uint (pm_pqmiss st) ;;
  dict_item "drop" ;;
  value_uint (pm_pqdrop st) ;;
  dict_item "bktskip" ;;
  value_uint (pm_pqskip st) ;;
  dict_end ;;

  dict_item "aupi_cdevq" ;;
  dict_begin ;;
  dict_item "buckets" ;;
  value_uint (ap_qlen st) ;;
  dict_item "bucketmax" ;;
  value_uint (ap_qlimit st) ;;
  dict_item "insert" ;;
  value_uint (ap_inserts st) ;;
  dict_item "read" ;;
  value_uint (ap_reads st) ;;
  dict_item "drop" ;;
  value_uint (ap_drops st) ;;
  dict_end ;;

  dict_item "work_queue" ;;
  dict_begin ;;
  dict_item "buckets" ;;
  value_uint (wq_qsize st) ;;
  dict_end ;;

  dict_item "log_queue" ;;
  dict_begin ;;
  dict_item "buckets" ;;
  value_uint (lq_qsize st) ;;
  dict_item "events" ;;
  list_begin ;;
  for_each (lq_counts st) (fun count =>
    list_item "event" ;;
    value_uint count) ;;
  list_end ;;
  dict_item "errors" ;;
  value_uint (lq_errors st) ;;
  dict_end ;;

  dict_item "hash_cache" ;;
  dict_begin ;;
  dict_item "buckets" ;;
  value_uint (ch_used st) ;;
  dict_item "bucketmax" ;;
  value_uint (ch_size st) ;;
  dict_item "put" ;;
  value_uint (ch_puts st) ;;
  dict_item "get" ;;
  value_uint (ch_gets st) ;;
  dict_item "hit" ;;
  value_uint (ch_hits st) ;;
  dict_item "miss" ;;
  value_uint (ch_misses st) ;;
  dict_item "inv" ;;
  value_uint (ch_invalids st) ;;
  dict_end ;;

  dict_item "csig_cache" ;;
  dict_begin ;;
  dict_item "buckets" ;;
  value_uint (cc_used st) ;;
  dict_item "bucketmax" ;;
  value_uint (cc_size st) ;;
  dict_item "put" ;;
  value_uint (cc_puts st) ;;
  dict_item "get" ;;
  value_uint (cc_gets st) ;;
  dict_item "hit" ;;
  value_uint (cc_hits st) ;;
  dict_item "miss" ;;
  value_uint (cc_misses st) ;;
  dict_item "inv" ;;
  value_uint (cc_invalids st) ;;
  dict_end ;;

  dict_item "ldpl_cache" ;;
  dict_begin ;;
  dict_item "buckets" ;;
  value_uint (cl_used st) ;;
  dict_item "bucketmax" ;;
  value_uint (cl_size st) ;;
  dict_item "put" ;;
  value_uint (cl_puts st) ;;
  dict_item "get" ;;
  value_uint (cl_gets st) ;;
  dict_item "hit" ;;
  value_uint (cl_hits st) ;;
  dict_item "miss" ;;
  value_uint (cl_misses st) ;;
  dict_item "inv" ;;
  value_uint (cl_invalids st) ;;
  dict_end ;;

  logevt_footer ;;
  ret 0.

(** The rendering of an image that is the object of the record. *)
Definition logevt_image_exec_image (ie : image_exec_t) : M unit :=
  dict_begin ;;
  dict_item "path" ;;
  value_string (ie_path ie) ;;
  when (has_flag (ie_flags ie) (Z.lor (EIFLAG_STAT P) (EIFLAG_ATTR P)))
    (when (negb (omit_mode config))
       (dict_item "mode" ;;
        value_uint_oct (st_mode (ie_stat ie))) ;;
     logevt_uid (st_uid (ie_stat ie)) "uid" "uname" ;;
     when (negb (omit_groups config))
       (logevt_gid (st_gid (ie_stat ie)) "gid" "gname")) ;;
  when (has_flag (ie_flags ie) (EIFLAG_STAT P))
    (when (negb (omit_size config))
       (dict_item "size" ;;
        value_uint (st_size (ie_stat ie))) ;;
     when (negb (omit_mtime config))
       (dict_item "mtime" ;;
        value_timespec (st_mtime (ie_stat ie))) ;;
     when (negb (omit_ctime config))
       (dict_item "ctime" ;;
        value_timespec (st_ctime (ie_stat ie))) ;;
     when (negb (omit_btime config))
       (dict_item "btime" ;;
        value_timespec (st_btime (ie_stat ie)))) ;;
  when (has_flag (ie_flags ie) (EIFLAG_HASHES P) &&
        (negb (omit_apple_hashes config) ||
         match ie_codesign ie with
         | None => true
         | Some cs => negb (codesign_is_apple_system P cs)
         end))
    (when (has_flag (hflags config) (HASH_MD5 P))
       (dict_item "md5" ;;
        value_buf_hex (md5 (ie_hashes ie)) (MD5SZ P)) ;;
     when (has_flag (hflags config) (HASH_SHA1 P))
       (dict_item "sha1" ;;
        value_buf_hex (sha1 (ie_hashes ie)) (SHA1SZ P)) ;;
     when (has_flag (hflags config) (HASH_SHA256 P))
       (dict_item "sha256" ;;
        value_buf_hex (sha256 (ie_hashes ie)) (SHA256SZ P))) ;;

  when_some (ie_codesign ie) (fun cs =>
    dict_item "signature" ;;
    value_string (codesign_result_s P cs) ;;
    when (negb (cs_origin cs =? 0))
      (dict_item "origin" ;;
       value_string (codesign_origin_s P cs)) ;;
    when_some (cs_cdhash cs) (fun cdhash =>
      dict_item "cdhash" ;;
      value_buf_hex cdhash (cs_cdhashsz cs)) ;;
    when_some (cs_ident cs) (fun ident =>
      dict_item "ident" ;;
      value_string ident) ;;
    when_some (cs_teamid cs) (fun teamid =>
      dict_item "teamid" ;;
      value_string teamid) ;;
    when_some (cs_certcn cs) (fun certcn =>
      dict_item "certcn" ;;
      value_string certcn)) ;;
  dict_end.

(** The rendering of an image in the context of a process. *)
Definition logevt_process_image_exec (ie : image_exec_t) : M unit :=
  dict_begin ;;
  when (negb (has_flag (ie_flags ie) (EIFLAG_PIDLOOKUP P)))
    (dict_item "exec_time" ;;
     value_timespec (tv (ie_hdr ie))) ;;
  dict_item "exec_pid" ;;
  value_int (ie_pid ie) ;;
  dict_item "path" ;;
  value_string (ie_path ie) ;;
  when (has_flag (ie_flags ie) (EIFLAG_HASHES P) &&
        (negb (omit_apple_hashes config) ||
         match ie_codesign ie with
         | None => true
         | Some cs => negb (codesign_is_apple_system P cs)
         end))
    (when (has_flag (hflags config) (HASH_MD5 P))
       (dict_item "md5" ;;
        value_buf_hex (md5 (ie_hashes ie)) (MD5SZ P)) ;;
     when (has_flag (hflags config) (HASH_SHA1 P))
       (dict_item "sha1" ;;
        value_buf_hex (sha1 (ie_hashes ie)) (SHA1SZ P)) ;;
     when (has_flag (hflags config) (HASH_SHA256 P))
       (dict_item "sha256" ;;
        value_buf_hex (sha256 (ie_hashes ie)) (SHA256SZ P))) ;;
  when_some (ie_codesign ie) (fun cs =>
    when (codesign_is_good P cs)
      (when_some (cs_ident cs) (fun ident =>
         dict_item "ident" ;;
         value_string ident) ;;
       when_some (cs_teamid cs) (fun teamid =>
         dict_item "teamid" ;;
         value_string teamid))) ;;
  when_some (ie_script ie) (fun script =>
    dict_item "script" ;;
    dict_begin ;;
    dict_item "path" ;;
    value_string (ie_path script) ;;
    assert (match ie_codesign script with None => true | Some _ => false end) ;;
    when (has_flag (ie_flags script) (EIFLAG_HASHES P))
      (when (has_flag (hflags config) (HASH_MD5 P))
         (dict_item "md5" ;;
          value_buf_hex (md5 (ie_hashes script)) (MD5SZ P)) ;;
       when (has_flag (hflags config) (HASH_SHA1 P))
         (dict_item "sha1" ;;
          value_buf_hex (sha1 (ie_hashes script)) (SHA1SZ P)) ;;
       when (has_flag (hflags config) (HASH_SHA256 P))
         (dict_item "sha256" ;;
          value_buf_hex (sha256 (ie_hashes script)) (SHA256SZ P))) ;;
    dict_end) ;;
  dict_end.

(** The [for] loop of [logevt_process_image_exec_ancestors], entered at a
    non-NULL [pie] with the current value of [depth]; [depth] is a [size_t]. *)
Fixpoint ancestors_loop (depth : Z) (pie : image_exec_t) : M unit :=
  if 0 <? ie_pid pie then
    if depth =? ancestors config then
      skip
    else
      list_item "ancestor" ;;
      logevt_process_image_exec pie ;;
      match ie_prev pie with
      | Some prev => ancestors_loop (size_wrap (depth + 1)) prev
      | None => skip
      end
  else
    skip.

Definition logevt_process_image_exec_ancestors (ie : option image_exec_t)
  : M unit :=
  list_begin ;;
  when_some ie (ancestors_loop 0) ;;
  list_end.

(** If only the pid is known and not the full process information,
    [processpid] is not 0 and [process] is ignored even if it is not NULL. *)
Definition logevt_process (process : option audit_proc_t) (processpid : Z)
                          (ie : option image_exec_t) : M unit :=
  dict_begin ;;
  when (match ie with
        | Some ie => has_flag (ie_flags ie) (EIFLAG_PIDLOOKUP P)
        | None => false
        end)
    (dict_item "reconstructed" ;;
     value_bool true) ;;
  (if 0 <? processpid then
     dict_item "pid" ;;
     value_int processpid
   else
     when_some process (fun process =>
       dict_item "pid" ;;
       value_int (pid process) ;;
       logevt_uid (auid process) "auid" "auname" ;;
       logevt_uid (euid process) "euid" "euname" ;;
       when (negb (omit_groups config))
         (logevt_gid (egid process) "egid" "egname") ;;
       logevt_uid (ruid process) "ruid" "runame" ;;
       when (negb (omit_groups config))
         (logevt_gid (rgid process) "rgid" "rgname") ;;
       when (negb (omit_sid config))
         (dict_item "sid" ;;
          value_uint (sid process)) ;;
       when (negb (dev process =? DEV_NONE))
         (dict_item "dev" ;;
          value_ttydev (dev process)) ;;
       when (negb (ipaddr_is_empty P (addr process)))
         (dict_item "addr" ;;
          value_string (ipaddrtoa P (addr process))))) ;;
  when_some ie (fun ie =>
    when (0 <? tv_sec (ie_fork_tv ie))
      (dict_item "fork_time" ;;
       value_timespec (ie_fork_tv ie)) ;;
    dict_item "image" ;;
    logevt_process_image_exec ie ;;
    when (0 <? ancestors config)
      (dict_item "ancestors" ;;
       logevt_process_image_exec_ancestors (ie_prev ie))) ;;
  dict_end.

Definition logevt_image_exec (ie : image_exec_t) : M Z :=
  logevt_header (ie_hdr ie) ;;

  when (has_flag (ie_flags ie) (EIFLAG_PIDLOOKUP P))
    (dict_item "reconstructed" ;;
     value_bool true) ;;

  when_some (ie_argv ie) (fun argv =>
    dict_item "argv" ;;
    list_begin ;;
    for_each argv (fun arg =>
      list_item "arg" ;;
      value_string arg) ;;
    list_end) ;;

  when_some (ie_envv ie) (fun envv =>
    dict_item "env" ;;
    list_begin ;;
    for_each envv (fun var =>
      list_item "var" ;;
      value_string var) ;;
    list_end) ;;

  when_some (ie_cwd ie) (fun cwd =>
    dict_item "cwd" ;;
    value_string cwd) ;;

  dict_item "image" ;;
  logevt_image_exec_image ie ;;

  when_some (ie_script ie) (fun script =>
    dict_item "script" ;;
    logevt_image_exec_image script) ;;

  dict_item "subject" ;;
  logevt_process
    (if has_flag (ie_flags ie) (EIFLAG_PIDLOOKUP P)
     then None else Some (ie_subject ie))
    0
    (ie_prev ie) ;;

  logevt_footer ;;
  ret 0.

Definition logevt_process_access (pa : process_access_t) : M Z :=
  logevt_header (pa_hdr pa) ;;

  dict_item "method" ;;
  value_string (pa_method pa) ;;

  dict_item "object" ;;
  logevt_process
    (Some (pa_object pa)) (pa_objectpid pa)
    (pa_object_image_exec pa) ;;

  dict_item "subject" ;;
  logevt_process
    (Some (pa_subject pa)) 0
    (pa_subject_image_exec pa) ;;

  logevt_footer ;;
  ret 0.

Definition logevt_launchd_add (ldadd : launchd_add_t) : M Z :=
  logevt_header (la_hdr ldadd) ;;

  dict_item "plist" ;;
  dict_begin ;;
  dict_item "path" ;;
  value_string (la_plist_path ldadd) ;;
  dict_end ;;

  dict_item "program" ;;
  dict_begin ;;
  when_some (la_program_rpath ldadd) (fun rpath =>
    dict_item "rpath" ;;
    value_string rpath) ;;
  when_some (la_program_path ldadd) (fun path =>
    dict_item "path" ;;
    value_string path) ;;
  when_some (la_program_argv ldadd) (fun argv =>
    dict_item "argv" ;;
    list_begin ;;
    for_each argv (fun arg =>
      list_item "arg" ;;
      value_string arg) ;;
    list_end) ;;
  dict_end ;;

  when (negb (has_flag (la_flags ldadd) (LAFLAG_NOSUBJECT P)))
    (dict_item "subject" ;;
     logevt_process
       (Some (la_subject ldadd)) 0
       (la_subject_image_exec ldadd)) ;;

  logevt_footer ;;
  ret 0.

Definition logevt_socket_listen (so : socket_listen_t) : M Z :=
  logevt_header (sl_hdr so) ;;

  when (negb (sl_protocol so =? 0))
    (dict_item "proto" ;;
     value_string (protocoltoa P (sl_protocol so))) ;;

  when (negb (ipaddr_is_empty P (sl_sock_addr so)))
    (dict_item "sockaddr" ;;
     value_string (ipaddrtoa P (sl_sock_addr so)) ;;
     dict_item "sockport" ;;
     value_uint (sl_sock_port so)) ;;

  dict_item "subject" ;;
  logevt_process
    (Some (sl_subject so)) 0
    (sl_subject_image_exec so) ;;

  logevt_footer ;;
  ret 0.

Definition logevt_socket_accept (so : socket_accept_t) : M Z :=
  logevt_header (so_hdr so) ;;

  when (negb (so_protocol so =? 0))
    (dict_item "proto" ;;
     value_string (protocoltoa P (so_protocol so))) ;;

  when (negb (ipaddr_is_empty P (so_sock_addr so)))
    (dict_item "sockaddr" ;;
     value_string (ipaddrtoa P (so_sock_addr so)) ;;
     dict_item "sockport" ;;
     value_uint (so_sock_port so)) ;;

  when (negb (ipaddr_is_empty P (so_peer_addr so)))
    (dict_item "peeraddr" ;;
     value_string (ipaddrtoa P (so_peer_addr so)) ;;
     dict_item "peerport" ;;
     value_uint (so_peer_port so)) ;;

  dict_item "subject" ;;
  logevt_process
    (Some (so_subject so)) 0
    (so_subject_image_exec so) ;;

  logevt_footer ;;
  ret 0.

Definition logevt_socket_connect (so : socket_connect_t) : M Z :=
  logevt_header (so_hdr so) ;;

  when (negb (so_protocol so =? 0))
    (dict_item "proto" ;;
     value_string (protocoltoa P (so_protocol so))) ;;

  when (negb (ipaddr_is_empty P (so_sock_addr so)))
    (dict_item "sockaddr" ;;
     value_string (ipaddrtoa P (so_sock_addr so)) ;;
     dict_item "sockport" ;;
     value_uint (so_sock_port so)) ;;

  when (negb (ipaddr_is_empty P (so_peer_addr so)))
    (dict_item "peeraddr" ;;
     value_string (ipaddrtoa P (so_peer_addr so)) ;;
     dict_item "peerport" ;;
     value_uint (so_peer_port so)) ;;

  dict_item "subject" ;;
  logevt_process
    (Some (so_subject so)) 0
    (so_subject_image_exec so) ;;

  logevt_footer ;;
  ret 0.

(** The events a log record can be made of, and the serializer of each. *)
Inductive event : Type :=
| EvXnumonOps (ops : xnumon_ops_t)
| EvXnumonStats (st : evtloop_stat_t)
| EvImageExec (ie : image_exec_t)
| EvProcessAccess (pa : process_access_t)
| EvLaunchdAdd (ldadd : launchd_add_t)
| EvSocketListen (so : socket_listen_t)
| EvSocketAccept (so : socket_accept_t)
| EvSocketConnect (so : socket_connect_t).

Definition logevt (ev : event) : M Z :=
  match ev with
  | EvXnumonOps ops => logevt_xnumon_ops ops
  | EvXnumonStats st => logevt_xnumon_stats st
  | EvImageExec ie => logevt_image_exec ie
  | EvProcessAccess pa => logevt_process_access pa
  | EvLaunchdAdd ldadd => logevt_launchd_add ldadd
  | EvSocketListen so => logevt_socket_listen so
  | EvSocketAccept so => logevt_socket_accept so
  | EvSocketConnect so => logevt_socket_connect so
  end.

End Logevt.

(** ** The configuration with one redaction switch changed *)

Definition set_omit_mode (b : bool) (c : config_t) : config_t :=
  Build_config_t
    (cfg_path c) (cfg_id c) (launchd_mode c) (debug c) (events c)
    (stats_interval c) (kextlevel c) (hflags c) (codesign c) (envlevel c)
    (resolve_users_groups c) b (omit_size c) (omit_mtime c) (omit_ctime c)
    (omit_btime c) (omit_sid c) (omit_groups c) (omit_apple_hashes c)
    (ancestors c) (logdst c) (logfmt c) (logoneline c) (logfile c)
    (limit_nofile c) (suppress_image_exec_at_start c)
    (suppress_image_exec_by_ident c) (suppress_image_exec_by_path c)
    (suppress_image_exec_by_ancestor_ident c)
    (suppress_image_exec_by_ancestor_path c)
    (suppress_process_access_by_subject_ident c)
    (suppress_process_access_by_subject_path c)
    (suppress_socket_op_localhost c) (suppress_socket_op_by_subject_ident c)
    (suppress_socket_op_by_subject_path c).

Definition set_omit_size (b : bool) (c : config_t) : config_t :=
  Build_config_t
    (cfg_path c) (cfg_id c) (launchd_mode c) (debug c) (events c)
    (stats_interval c) (kextlevel c) (hflags c) (codesign c) (envlevel c)
    (resolve_users_groups c) (omit_mode c) b (omit_mtime c) (omit_ctime c)
    (omit_btime c) (omit_sid c) (omit_groups c) (omit_apple_hashes c)
    (ancestors c) (logdst c) (logfmt c) (logoneline c) (logfile c)
    (limit_nofile c) (suppress_image_exec_at_start c)
    (suppress_image_exec_by_ident c) (suppress_image_exec_by_path c)
    (suppress_image_exec_by_ancestor_ident c)
    (suppress_image_exec_by_ancestor_path c)
    (suppress_process_access_by_subject_ident c)
    (suppress_process_access_by_subject_path c)
    (suppress_socket_op_localhost c) (suppress_socket_op_by_subject_ident c)
    (suppress_socket_op_by_subject_path c).

Definition set_omit_mtime (b : bool) (c : config_t) : config_t :=
  Build_config_t
    (cfg_path c) (cfg_id c) (launchd_mode c) (debug c) (events c)
    (stats_interval c) (kextlevel c) (hflags c) (codesign c) (envlevel c)
    (resolve_users_groups c) (omit_mode c) (omit_size c) b (omit_ctime c)
    (omit_btime c) (omit_sid c) (omit_groups c) (omit_apple_hashes c)
    (ancestors c) (logdst c) (logfmt c) (logoneline c) (logfile c)
    (limit_nofile c) (suppress_image_exec_at_start c)
    (suppress_image_exec_by_ident c) (suppress_image_exec_by_path c)
    (suppress_image_exec_by_ancestor_ident c)
    (suppress_image_exec_by_ancestor_path c)
    (suppress_process_access_by_subject_ident c)
    (suppress_process_access_by_subject_path c)
    (suppress_socket_op_localhost c) (suppress_socket_op_by_subject_ident c)
    (suppress_socket_op_by_subject_path c).

Definition set_omit_ctime (b : bool) (c : config_t) : config_t :=
  Build_config_t
    (cfg_path c) (cfg_id c) (launchd_mode c) (debug c) (events c)
    (stats_interval c) (kextlevel c) (hflags c) (codesign c) (envlevel c)
    (resolve_users_groups c) (omit_mode c) (omit_size c) (omit_mtime c) b
    (omit_btime c) (omit_sid c) (omit_groups c) (omit_apple_hashes c)
    (ancestors c) (logdst c) (logfmt c) (logoneline c) (logfile c)
    (limit_nofile c) (suppress_image_exec_at_start c)
    (suppress_image_exec_by_ident c) (suppress_image_exec_by_path c)
    (suppress_image_exec_by_ancestor_ident c)
    (suppress_image_exec_by_ancestor_path c)
    (suppress_process_access_by_subject_ident c)
    (suppress_process_access_by_subject_path c)
    (suppress_socket_op_localhost c) (suppress_socket_op_by_subject_ident c)
    (suppress_socket_op_by_subject_path c).

Definition set_omit_btime (b : bool) (c : config_t) : config_t :=
  Build_config_t
    (cfg_path c) (cfg_id c) (launchd_mode c) (debug c) (events c)
    (stats_interval c) (kextlevel c) (hflags c) (codesign c) (envlevel c)
    (resolve_users_groups c) (omit_mode c) (omit_size c) (omit_mtime c)
    (omit_ctime c) b (omit_sid c) (omit_groups c) (omit_apple_hashes c)
    (ancestors c) (logdst c) (logfmt c) (logoneline c) (logfile c)
    (limit_nofile c) (suppress_image_exec_at_start c)
    (suppress_image_exec_by_ident c) (suppress_image_exec_by_path c)
    (suppress_image_exec_by_ancestor_ident c)
    (suppress_image_exec_by_ancestor_path c)
    (suppress_process_access_by_subject_ident c)
    (suppress_process_access_by_subject_path c)
    (suppress_socket_op_localhost c) (suppress_socket_op_by_subject_ident c)
    (suppress_socket_op_by_subject_path c).

Definition set_omit_sid (b : bool) (c : config_t) : config_t :=
  Build_config_t
    (cfg_path c) (cfg_id c) (launchd_mode c) (debug c) (events c)
    (stats_interval c) (kextlevel c) (hflags c) (codesign c) (envlevel c)
    (resolve_users_groups c) (omit_mode c) (omit_size c) (omit_mtime c)
    (omit_ctime c) (omit_btime c) b (omit_groups c) (omit_apple_hashes c)
    (ancestors c) (logdst c) (logfmt c) (logoneline c) (logfile c)
    (limit_nofile c) (suppress_image_exec_at_start c)
    (suppress_image_exec_by_ident c) (suppress_image_exec_by_path c)
    (suppress_image_exec_by_ancestor_ident c)
    (suppress_image_exec_by_ancestor_path c)
    (suppress_process_access_by_subject_ident c)
    (suppress_process_access_by_subject_path c)
    (suppress_socket_op_localhost c) (suppress_socket_op_by_subject_ident c)
    (suppress_socket_op_by_subject_path c).

Definition set_omit_groups (b : bool) (c : config_t) : config_t :=
  Build_config_t
    (cfg_path c) (cfg_id c) (launchd_mode c) (debug c) (events c)
    (stats_interval c) (kextlevel c) (hflags c) (codesign c) (envlevel c)
    (resolve_users_groups c) (omit_mode c) (omit_size c) (omit_mtime c)
    (omit_ctime c) (omit_btime c) (omit_sid c) b (omit_apple_hashes c)
    (ancestors c) (logdst c) (logfmt c) (logoneline c) (logfile c)
    (limit_nofile c) (suppress_image_exec_at_start c)
    (suppress_image_exec_by_ident c) (suppress_image_exec_by_path c)
    (suppress_image_exec_by_ancestor_ident c)
    (suppress_image_exec_by_ancestor_path c)
    (suppress_process_access_by_subject_ident c)
    (suppress_process_access_by_subject_path c)
    (suppress_socket_op_localhost c) (suppress_socket_op_by_subject_ident c)
    (suppress_socket_op_by_subject_path c).

(** ** Reading a sequence of engine calls *)

Definition is_record_begin (c : call) : bool :=
  match c with RecordBegin => true | _ => false end.

Definition is_record_end (c : call) : bool :=
  match c with RecordEnd => true | _ => false end.

Definition is_ancestor_item (c : call) : bool :=
  match c with ListItem label => String.eqb label "ancestor" | _ => false end.

Definition count (p : call -> bool) (t : trace) : nat :=
  List.length (filter p t).

(** Neither [record_begin] nor [record_end]. *)
Definition inside_record (c : call) : bool :=
  negb (is_record_begin c) && negb (is_record_end c).

(** The keys passed to [dict_item], in the order of the calls. *)
Fixpoint dict_keys (t : trace) : list string :=
  match t with
  | [] => []
  | DictItem k :: t' => k :: dict_keys t'
  | _ :: t' => dict_keys t'
  end.

(** The keys of the dictionaries opened at nesting depth [1], the trace being
    read from nesting depth [depth]: the keys of a dictionary itself, without
    those of the dictionaries and lists nested in it. *)
Fixpoint keys_at (depth : nat) (t : trace) : list string :=
  match t with
  | [] => []
  | DictBegin :: t' | ListBegin :: t' => keys_at (S depth) t'
  | DictEnd :: t' | ListEnd :: t' => keys_at (Nat.pred depth) t'
  | DictItem k :: t' =>
      if Nat.eqb depth 1 then k :: keys_at depth t' else keys_at depth t'
  | _ :: t' => keys_at depth t'
  end.

Definition own_keys (t : trace) : list string := keys_at 0 t.

Definition mem (k : string) (ks : list string) : bool :=
  existsb (String.eqb k) ks.

(** [c] is not a [dict_item] call for one of the keys [ks]. *)
Definition avoids (ks : list string) (c : call) : bool :=
  match c with DictItem k => negb (mem k ks) | _ => true end.

(** Every call issued by [m] satisfies [Q]. *)
Definition all {A} (Q : call -> bool) (m : M A) : Prop :=
  forallb Q (calls m) = true.

(** The keys among [ks], in the order they are emitted. *)
Definition pick (ks : list string) (t : trace) : list string :=
  filter (fun k => mem k ks) (dict_keys t).

Definition hash_keys : list string := ["md5"; "sha1"; "sha256"].

Definition signature_keys : list string :=
  ["signature"; "origin"; "cdhash"; "ident"; "teamid"; "certcn"].

Definition credential_keys : list string :=
  ["auid"; "auname"; "euid"; "euname"; "egid"; "egname"; "ruid"; "runame";
   "rgid"; "rgname"; "sid"; "dev"; "addr"].

(** ** The ancestor chain *)

(** The image execs reached from [ie] through the [prev] pointers, [ie]
    first. *)
Fixpoint chain (ie : image_exec_t) : list image_exec_t :=
  ie :: match ie_prev ie with Some prev => chain prev | None => [] end.

Definition chain_from (ie : option image_exec_t) : list image_exec_t :=
  match ie with Some ie => chain ie | None => [] end.

(** The chain up to, and without, its first node of non-positive pid. *)
Fixpoint live (l : list image_exec_t) : list image_exec_t :=
  match l with
  | [] => []
  | ie :: l' => if 0 <? ie_pid ie then ie :: live l' else []
  end.

(** ** A log format engine whose writes can fail

    An engine is a transition on its own state (the [FILE] it writes to);
    each call reports whether the write went through. *)
Definition engine (S : Type) : Type := call -> S -> S * bool.

(** The engine is driven through the calls in order, once each. *)
Fixpoint drive {S} (fmt : engine S) (t : trace) (s : S) : S * list bool :=
  match t with
  | [] => (s, [])
  | c :: t' =>
      let '(s1, ok) := fmt c s in
      let '(s2, oks) := drive fmt t' s1 in
      (s2, ok :: oks)
  end.

(** A serializer run on an engine: the final engine state, the result of each
    write, and what the serializer returned. *)
Definition run_on {S A} (fmt : engine S) (s : S) (m : M A)
  : S * list bool * option A :=
  (drive fmt (calls m) s, outcome m).

(** ** Concrete platform, configuration and events

    Used to run the serializers on actual inputs. *)
Module Sample.

Definition platform : platform := {|
  LOGEVT_VERSION := 9;
  EIFLAG_STAT := 1;
  EIFLAG_ATTR := 2;
  EIFLAG_HASHES := 4;
  EIFLAG_PIDLOOKUP := 256;
  LAFLAG_NOSUBJECT := 1;
  HASH_MD5 := 1;
  HASH_SHA1 := 2;
  HASH_SHA256 := 4;
  MD5SZ := 16;
  SHA1SZ := 20;
  SHA256SZ := 32;
  getpwuid := fun uid =>
    if uid =? 0 then Some "root" else
    if uid =? 501 then Some "alice" else None;
  getgrgid := fun gid =>
    if gid =? 0 then Some "wheel" else
    if gid =? 20 then Some "staff" else None;
  codesign_result_s := fun cs => if cs_result cs =? 1 then "good" else "bad";
  codesign_origin_s := fun cs =>
    if cs_origin cs =? 1 then "system" else "devid";
  codesign_is_apple_system := fun cs =>
    (cs_result cs =? 1) && (cs_origin cs =? 1);
  codesign_is_good := fun cs => cs_result cs =? 1;
  ipaddr_is_empty := fun a => family a =? 0;
  ipaddrtoa := fun a => if family a =? 2 then "192.0.2.1" else "2001:db8::1";
  protocoltoa := fun p => if p =? 6 then "tcp" else "udp";
  config_events_s := fun _ => "image-exec process-access";
  config_kextlevel_s := fun _ => "hash";
  config_envlevel_s := fun _ => "dyld";
  hashes_flags_s := fun _ => "sha256";
  logdst_s := fun _ => "file";
  logfmt_s := fun _ => "json";
  setstr_size := fun s => Z.of_nat (List.length s);
  build_version := "0.1.7";
  build_date := "2019-01-01";
  build_info := "release";
  os_name := "Mac OS X";
  os_version := "10.14";
  os_build := "18A391"
|}.

Definition config : config_t := {|
  cfg_path := "/Library/Application Support/ch.roe.xnumon/configuration.plist";
  cfg_id := None;
  launchd_mode := true;
  debug := false;
  events := 3;
  stats_interval := 3600;
  kextlevel := 1;
  hflags := 4;
  codesign := true;
  envlevel := 1;
  resolve_users_groups := true;
  omit_mode := false;
  omit_size := false;
  omit_mtime := false;
  omit_ctime := false;
  omit_btime := false;
  omit_sid := false;
  omit_groups := false;
  omit_apple_hashes := true;
  ancestors := 1;
  logdst := 0;
  logfmt := 0;
  logoneline := -1;
  logfile := None;
  limit_nofile := 1024;
  suppress_image_exec_at_start := true;
  suppress_image_exec_by_ident := [];
  suppress_image_exec_by_path := [];
  suppress_image_exec_by_ancestor_ident := [];
  suppress_image_exec_by_ancestor_path := [];
  suppress_process_access_by_subject_ident := [];
  suppress_process_access_by_subject_path := [];
  suppress_socket_op_localhost := true;
  suppress_socket_op_by_subject_ident := [];
  suppress_socket_op_by_subject_path := []
|}.

Definition time0 : timespec := {| tv_sec := 1546300800; tv_nsec := 0 |}.
Definition no_time : timespec := {| tv_sec := 0; tv_nsec := 0 |}.
Definition header (c : Z) : logevt_header_t := {| code := c; tv := time0 |}.

Definition no_addr : ipaddr_t := {| family := 0; addr_bytes := [] |}.
Definition addr4 : ipaddr_t :=
  {| family := 2; addr_bytes := [xc0; x00; x02; x01] |}.

Definition stat : stat_attr_t := {|
  st_mode := 33261; st_uid := 0; st_gid := 0; st_size := 38704;
  st_mtime := time0; st_ctime := time0; st_btime := time0
|}.

Definition hashes : hashes_t :=
  {| md5 := [x01]; sha1 := [x02]; sha256 := [x03] |}.

Definition proc (p : Z) : audit_proc_t := {|
  pid := p; auid := 501; euid := 501; egid := 20; ruid := 501; rgid := 20;
  sid := 100; dev := -1; addr := no_addr
|}.

(** A valid signature of the platform vendor, without team id. *)
Definition apple_signature (ident : string) : codesign_t := {|
  cs_result := 1; cs_origin := 1; cs_cdhash := Some [xaa];
  cs_cdhashsz := 20; cs_ident := Some ident; cs_teamid := None;
  cs_certcn := Some "Software Signing"
|}.

(** A signature that did not validate. *)
Definition bad_signature : codesign_t := {|
  cs_result := 2; cs_origin := 0; cs_cdhash := None;
  cs_cdhashsz := 0; cs_ident := Some "com.example.tool";
  cs_teamid := Some "TEAM123456"; cs_certcn := None
|}.

Definition image (p : Z) (path : string) (cs : option codesign_t)
                 (script prev : option image_exec_t) : image_exec_t := {|
  ie_hdr := header 2;
  ie_flags := 7;
  ie_pid := p;
  ie_path := path;
  ie_stat := stat;
  ie_hashes := hashes;
  ie_codesign := cs;
  ie_script := script;
  ie_argv := Some [path];
  ie_envv := None;
  ie_cwd := Some "/";
  ie_fork_tv := time0;
  ie_subject := proc p;
  ie_prev := prev
|}.

Definition launchd : image_exec_t :=
  image 1 "/sbin/launchd" (Some (apple_signature "com.apple.xpc.launchd"))
        None None.

Definition sh : image_exec_t :=
  image 4200 "/bin/sh" (Some (apple_signature "com.apple.sh"))
        None (Some launchd).

Definition ls : image_exec_t :=
  image 4242 "/bin/ls" (Some (apple_signature "com.apple.ls"))
        None (Some sh).

(** An unsigned tool. *)
Definition tool : image_exec_t :=
  image 4300 "/usr/local/bin/tool" None None (Some sh).

(** A script as the producer builds it: hashes, no signature. *)
Definition script : image_exec_t :=
  image 4400 "/usr/local/bin/run.py" None None None.

Definition python : image_exec_t :=
  image 4400 "/usr/bin/python" (Some (apple_signature "com.apple.python"))
        (Some script) (Some sh).

(** A script that carries a signature, against the invariant asserted in
    [logevt_process_image_exec]. *)
Definition signed_script : image_exec_t :=
  image 4500 "/usr/local/bin/run.sh" (Some bad_signature) None None.

Definition sh_signed_script : image_exec_t :=
  image 4500 "/bin/sh" (Some (apple_signature "com.apple.sh"))
        (Some signed_script) (Some launchd).

Definition connect : socket_connect_t := {|
  so_hdr := header 7;
  so_protocol := 6;
  so_sock_addr := addr4;
  so_sock_port := 49152;
  so_peer_addr := no_addr;
  so_peer_port := 0;
  so_subject := proc 4242;
  so_subject_image_exec := Some ls
|}.

(** An engine on a closed file: every write fails. *)
Definition closed_file : engine unit := fun _ s => (s, false).

End Sample.

(** ** Notions used in the statements *)

(** What remains of a serializer after its header: calls inside the record,
    then [record_end] as the last call. *)
Definition closes_record (k : M Z) : Prop :=
  returned k = true ->
  exists body,
    calls k = body ++ [RecordEnd] /\ forallb inside_record body = true.

(** The envelope of a trace: one [record_begin], first; one [record_end],
    last; and [version], [time], [eventcode] as the first three keys. *)
Definition enveloped (t : trace) : Prop :=
  count is_record_begin t = 1%nat /\
  count is_record_end t = 1%nat /\
  (exists body,
     t = RecordBegin :: body ++ [RecordEnd] /\
     forallb inside_record body = true) /\
  firstn 3 (dict_keys t) = ["version"; "time"; "eventcode"].

(** One entry of the ancestor list. *)
Definition render_ancestor P cfg (pie : image_exec_t) : M unit :=
  list_item "ancestor" ;; logevt_process_image_exec P cfg pie.

Definition not_ancestor_item (c : call) : bool := negb (is_ancestor_item c).

(** Calls that neither open nor close a dictionary or a list. *)
Definition is_flat (c : call) : bool :=
  match c with
  | DictBegin | DictEnd | ListBegin | ListEnd => false
  | _ => true
  end.

(** The keys among [ks] of the dictionary itself. *)
Definition pick_own (ks : list string) (t : trace) : list string :=
  filter (fun k => mem k ks) (own_keys t).

(** The condition under which the hash fields of an image are left out. *)
Definition hashes_suppressed P cfg (ie : image_exec_t) : bool :=
  omit_apple_hashes cfg &&
  match ie_codesign ie with
  | Some cs => codesign_is_apple_system P cs
  | None => false
  end.

(** The keys of the hashes selected by the configured hash flags. *)
Definition configured_hash_keys P cfg : list string :=
  (if has_flag (hflags cfg) (HASH_MD5 P) then ["md5"] else []) ++
  (if has_flag (hflags cfg) (HASH_SHA1 P) then ["sha1"] else []) ++
  (if has_flag (hflags cfg) (HASH_SHA256 P) then ["sha256"] else []).

Definition optional_key {A} (o : option A) (k : string) : list string :=
  match o with Some _ => [k] | None => [] end.

(** The trace without the items of the keys [ks]: the [dict_item] call and
    the value call that follows it. *)
Fixpoint drop_items (ks : list string) (t : trace) : trace :=
  match t with
  | [] => []
  | DictItem k :: t' =>
      if mem k ks then
        match t' with
        | [] => []
        | _ :: t'' => drop_items ks t''
        end
      else DictItem k :: drop_items ks t'
  | c :: t' => c :: drop_items ks t'
  end.

(** A switch gating the fields [keys]: with the switch off ([shown]) the key
    [key] is emitted; with the switch on ([hidden]) none of [keys] is, and
    the calls are those of [shown] with the items of [keys] taken out;
    both runs end the same way. *)
Definition redacts {A} (key : string) (keys : list string)
                   (shown hidden : M A) : Prop :=
  In (DictItem key) (calls shown) /\
  pick keys (calls hidden) = [] /\
  calls hidden = drop_items keys (calls shown) /\
  outcome hidden = outcome shown.

(** The field [reconstructed] at the head of a process dictionary. *)
Definition reconstructed_field P (ie : option image_exec_t) : trace :=
  match ie with
  | Some ie =>
      if has_flag (ie_flags ie) (EIFLAG_PIDLOOKUP P)
      then [DictItem "reconstructed"; ValueBool true] else []
  | None => []
  end.

Definition identity_keys : list string := "pid" :: credential_keys.

(** When the process-context rendering returns. *)
Definition script_unsigned (ie : image_exec_t) : bool :=
  match ie_script ie with
  | Some script =>
      match ie_codesign script with None => true | Some _ => false end
  | None => true
  end.

(** A failed write makes the serializer report a failure: it does not
    return 0. *)
Definition failure_propagated {S} (fmt : engine S) (s : S) (m : M Z) : Prop :=
  In false (snd (fst (run_on fmt s m))) -> outcome m <> Some 0.

Definition pidlookup P (ie : image_exec_t) : bool :=
  has_flag (ie_flags ie) (EIFLAG_PIDLOOKUP P).

(** No image exec of the chain has a script that carries a signature: the
    invariant the producer of the events maintains. *)
Definition scripts_unsigned (ie : option image_exec_t) : Prop :=
  Forall (fun a => script_unsigned a = true) (chain_from ie).

(** The image execs a serializer renders in process context are those
    attached to the processes of the event. *)
Definition event_scripts_unsigned (ev : event) : Prop :=
  match ev with
  | EvXnumonOps _ | EvXnumonStats _ => True
  | EvImageExec ie => scripts_unsigned (ie_prev ie)
  | EvProcessAccess pa =>
      scripts_unsigned (pa_object_image_exec pa) /\
      scripts_unsigned (pa_subject_image_exec pa)
  | EvLaunchdAdd ldadd => scripts_unsigned (la_subject_image_exec ldadd)
  | EvSocketListen so => scripts_unsigned (sl_subject_image_exec so)
  | EvSocketAccept so | EvSocketConnect so =>
      scripts_unsigned (so_subject_image_exec so)
  end.

(** ** The protocol of the log format engine

    The calls an engine accepts: a record holds one value; a value is a
    scalar, a dictionary or a list; inside a dictionary every [dict_item] is
    followed by one value, inside a list every [list_item] is. *)
Inductive block : Type := InRecord | InDict | InList.

(** The blocks that are open, innermost first, and whether a value is due. *)
Definition protocol_state : Type := (list block * bool)%type.

Definition step (st : protocol_state) (c : call) : option protocol_state :=
  let '(open, due) := st in
  match c with
  | RecordBegin =>
      match open, due with
      | [], false => Some ([InRecord], true)
      | _, _ => None
      end
  | RecordEnd =>
      match open, due with
      | [InRecord], false => Some ([], false)
      | _, _ => None
      end
  | DictBegin => if due then Some (InDict :: open, false) else None
  | ListBegin => if due then Some (InList :: open, false) else None
  | DictEnd =>
      match open, due with
      | InDict :: outer, false => Some (outer, false)
      | _, _ => None
      end
  | ListEnd =>
      match open, due with
      | InList :: outer, false => Some (outer, false)
      | _, _ => None
      end
  | DictItem _ =>
      match open, due with
      | InDict :: _, false => Some (open, true)
      | _, _ => None
      end
  | ListItem _ =>
      match open, due with
      | InList :: _, false => Some (open, true)
      | _, _ => None
      end
  | _ => if due then Some (open, false) else None
  end.

Fixpoint accept (st : protocol_state) (t : trace) : option protocol_state :=
  match t with
  | [] => Some st
  | c :: t' =>
      match step st c with
      | Some st' => accept st' t'
      | None => None
      end
  end.

Definition idle : protocol_state := ([], false).

(** [m] obeys the protocol from the state [st]: its calls are accepted, and
    leave the engine in the state [st'] if [m] returns. *)
Definition exec {A} (m : M A) (st st' : protocol_state) : Prop :=
  (returned m = true -> accept st (calls m) = Some st') /\
  accept st (calls m) <> None.

(** ** The protocol, with the keys of each open dictionary

    A stricter engine, which keeps for every open dictionary the keys it has
    received and refuses a key it has already got. *)
Inductive keyed_block : Type :=
| KRecord
| KDict (keys : list string)
| KList.

Definition keyed_state : Type := (list keyed_block * bool)%type.

Definition keyed_step (st : keyed_state) (c : call) : option keyed_state :=
  let '(open, due) := st in
  match c with
  | RecordBegin =>
      match open, due with
      | [], false => Some ([KRecord], true)
      | _, _ => None
      end
  | RecordEnd =>
      match open, due with
      | [KRecord], false => Some ([], false)
      | _, _ => None
      end
  | DictBegin => if due then Some (KDict [] :: open, false) else None
  | ListBegin => if due then Some (KList :: open, false) else None
  | DictEnd =>
      match open, due with
      | KDict _ :: outer, false => Some (outer, false)
      | _, _ => None
      end
  | ListEnd =>
      match open, due with
      | KList :: outer, false => Some (outer, false)
      | _, _ => None
      end
  | DictItem k =>
      match open, due with
      | KDict keys :: outer, false =>
          if mem k keys then None else Some (KDict (k :: keys) :: outer, true)
      | _, _ => None
      end
  | ListItem _ =>
      match open, due with
      | KList :: _, false => Some (open, true)
      | _, _ => None
      end
  | _ => if due then Some (open, false) else None
  end.

Fixpoint keyed_accept (st : keyed_state) (t : trace) : option keyed_state :=
  match t with
  | [] => Some st
  | c :: t' =>
      match keyed_step st c with
      | Some st' => keyed_accept st' t'
      | None => None
      end
  end.

Definition keyed_idle : keyed_state := ([], false).

(** [within open bound]: the same blocks, every dictionary of [open] holding
    only keys of the dictionary of [bound] at the same place. *)
Fixpoint within (open bound : list keyed_block) : Prop :=
  match open, bound with
  | [], [] => True
  | KRecord :: open', KRecord :: bound' => within open' bound'
  | KList :: open', KList :: bound' => within open' bound'
  | KDict keys :: open', KDict keys' :: bound' =>
      incl keys keys' /\ within open' bound'
  | _, _ => False
  end.

Definition state_within (st bound : keyed_state) : Prop :=
  within (fst st) (fst bound) /\ snd st = snd bound.

(** From every state within [pre], the calls of [m] are accepted by the
    stricter engine, and leave it in a state within [post] if [m] returns. *)
Definition keyed_exec {A} (m : M A) (pre post : keyed_state) : Prop :=
  forall st,
    state_within st pre ->
    (returned m = true ->
     exists st', keyed_accept st (calls m) = Some st' /\
                 state_within st' post) /\
    keyed_accept st (calls m) <> None.

(** ** The images an event has rendered in the context of a process *)

(** The header every event starts with. *)
Definition event_header (ev : event) : logevt_header_t :=
  match ev with
  | EvXnumonOps ops => ops_hdr ops
  | EvXnumonStats st => st_hdr st
  | EvImageExec ie => ie_hdr ie
  | EvProcessAccess pa => pa_hdr pa
  | EvLaunchdAdd ldadd => la_hdr ldadd
  | EvSocketListen so => sl_hdr so
  | EvSocketAccept so | EvSocketConnect so => so_hdr so
  end.

(** The images [logevt_process] renders with [logevt_process_image_exec]:
    the attached image and, when the ancestor depth is positive, the
    ancestors it walks. *)
Definition rendered_in_context cfg (ie : option image_exec_t)
  : list image_exec_t :=
  match ie with
  | None => []
  | Some ie =>
      ie :: (if 0 <? ancestors cfg
             then firstn (Z.to_nat (ancestors cfg))
                         (live (chain_from (ie_prev ie)))
             else [])
  end.

(** The image execs passed to [logevt_process] by the serializer of an
    event. *)
Definition event_images P (ev : event) : list (option image_exec_t) :=
  match ev with
  | EvXnumonOps _ | EvXnumonStats _ => []
  | EvImageExec ie => [ie_prev ie]
  | EvProcessAccess pa =>
      [pa_object_image_exec pa; pa_subject_image_exec pa]
  | EvLaunchdAdd ldadd =>
      if has_flag (la_flags ldadd) (LAFLAG_NOSUBJECT P) then []
      else [la_subject_image_exec ldadd]
  | EvSocketListen so => [sl_subject_image_exec so]
  | EvSocketAccept so | EvSocketConnect so => [so_subject_image_exec so]
  end.

Definition assertions_hold P cfg (ev : event) : bool :=
  forallb (fun ie => forallb script_unsigned (rendered_in_context cfg ie))
          (event_images P ev).

(** Neither the key [ancestors] nor anything of a list. *)
Definition no_ancestor_list (c : call) : bool :=
  match c with
  | DictItem k => negb (String.eqb k "ancestors")
  | ListBegin | ListEnd | ListItem _ => false
  | _ => true
  end.

(** [m] issues at most [n] calls that satisfy [p]. *)
Definition bounded {A} (p : call -> bool) (m : M A) (n : nat) : Prop :=
  (count p (calls m) <= n)%nat.

Definition any_call (c : call) : bool := true.

Definition socket_keys : list string :=
  ["proto"; "sockaddr"; "sockport"; "peeraddr"; "peerport"].

(** The keys of the local end of a socket, when its address is known. *)
Definition endpoint_keys (empty : bool) (addr port : string) : list string :=
  if empty then [] else [addr; port].

(** The values of the items of a list that carry the label [label]: for
    each such [list_item] call, the call that follows it. *)
Fixpoint list_values (label : string) (t : trace) : trace :=
  match t with
  | [] => []
  | ListItem l :: t' =>
      if String.eqb l label then
        match t' with
        | [] => []
        | v :: t'' => v :: list_values label t''
        end
      else list_values label t'
  | _ :: t' => list_values label t'
  end.

(** [c] is not a [list_item] call with the label [label]. *)
Definition other_label (label : string) (c : call) : bool :=
  match c with ListItem l => negb (String.eqb l label) | _ => true end.

(** An array that may be NULL, as the list of its elements. *)
Definition elements {A} (array : option (list A)) : list A :=
  match array with Some l => l | None => [] end.

(** A [list_item] call. *)
Definition is_list_item (c : call) : bool :=
  match c with ListItem _ => true | _ => false end.

(** ** The keys of a record *)

(** The number of dictionaries and lists among the open blocks. *)
Definition nesting (open : list block) : nat :=
  List.length
    (filter (fun b => match b with InRecord => false | _ => true end) open).

(** [m], when it returns, takes the reader of the keys of a record from the
    depth [d] to the depth [d'] and adds [ks] to the keys of the record. *)
Definition keys_run {A} (m : M A) (d : nat) (ks : list string) (d' : nat)
  : Prop :=
  returned m = true ->
  forall rest, keys_at d (calls m ++ rest) = ks ++ keys_at d' rest.

(** The keys of the record of an event, after those of the header: they
    depend on which parts of the event are present and on nothing inside a
    part. *)
Definition record_keys P (ev : event) : list string :=
  match ev with
  | EvXnumonOps _ => ["op"; "build"; "config"; "system"]
  | EvXnumonStats _ =>
      ["evtloop"; "procmon"; "hackmon"; "filemon"; "sockmon"; "kext_cdevq";
       "prep_queue"; "aupi_cdevq"; "work_queue"; "log_queue"; "hash_cache";
       "csig_cache"; "ldpl_cache"]
  | EvImageExec ie =>
      (if pidlookup P ie then ["reconstructed"] else []) ++
      optional_key (ie_argv ie) "argv" ++
      optional_key (ie_envv ie) "env" ++
      optional_key (ie_cwd ie) "cwd" ++
      ["image"] ++
      optional_key (ie_script ie) "script" ++
      ["subject"]
  | EvProcessAccess _ => ["method"; "object"; "subject"]
  | EvLaunchdAdd ldadd =>
      ["plist"; "program"] ++
      (if has_flag (la_flags ldadd) (LAFLAG_NOSUBJECT P) then []
       else ["subject"])
  | EvSocketListen so =>
      (if sl_protocol so =? 0 then [] else ["proto"]) ++
      endpoint_keys (ipaddr_is_empty P (sl_sock_addr so))
        "sockaddr" "sockport" ++
      ["subject"]
  | EvSocketAccept so | EvSocketConnect so =>
      (if so_protocol so =? 0 then [] else ["proto"]) ++
      endpoint_keys (ipaddr_is_empty P (so_sock_addr so))
        "sockaddr" "sockport" ++
      endpoint_keys (ipaddr_is_empty P (so_peer_addr so))
        "peeraddr" "peerport" ++
      ["subject"]
  end.

(** * Properties *)

(** ** Sequencing *)

Section Sequencing.

Context {B : Type}.
Implicit Types (m : M unit) (k : M B).

Lemma returned_seq m k : returned (m ;; k) = returned m && returned k.
Proof.
  unfold returned, outcome, seq. destruct (snd m); reflexivity.
Qed.

Lemma calls_seq m k :
  calls (m ;; k) = calls m ++ (if returned m then calls k else []).
Proof.
  unfold returned, outcome, calls, seq.
  destruct (snd m); simpl; [reflexivity | now rewrite app_nil_r].
Qed.

Lemma outcome_seq m k :
  outcome (m ;; k) = if returned m then outcome k else None.
Proof.
  unfold returned, outcome, seq. destruct (snd m); reflexivity.
Qed.

Lemma calls_seq_pure m k :
  returned m = true -> calls (m ;; k) = calls m ++ calls k.
Proof. intros H. now rewrite calls_seq, H. Qed.

Lemma returned_seq_pure m k :
  returned m = true -> returned (m ;; k) = returned k.
Proof. intros H. now rewrite returned_seq, H. Qed.

Lemma returned_seq_intro m k :
  returned m = true -> returned k = true -> returned (m ;; k) = true.
Proof. intros Hm Hk. now rewrite returned_seq, Hm, Hk. Qed.

Lemma returned_seq_inv m k :
  returned (m ;; k) = true -> returned m = true /\ returned k = true.
Proof. rewrite returned_seq. apply andb_prop. Qed.

Lemma all_seq Q m k : all Q m -> all Q k -> all Q (m ;; k).
Proof.
  unfold all. intros Hm Hk. rewrite calls_seq, forallb_app, Hm.
  destruct (returned m); [exact Hk | reflexivity].
Qed.

End Sequencing.

Lemma seq_assoc {B} (a b : M unit) (k : M B) : (a ;; b) ;; k = a ;; (b ;; k).
Proof.
  destruct a as [ta [[]|]], b as [tb [[]|]], k as [tk ok];
    unfold seq; simpl; rewrite <- ?app_assoc; reflexivity.
Qed.

Lemma returned_when c (m : M unit) :
  returned m = true -> returned (when c m) = true.
Proof. destruct c; [trivial | reflexivity]. Qed.

Lemma returned_when_some {A} (o : option A) (f : A -> M unit) :
  (forall a, returned (f a) = true) -> returned (when_some o f) = true.
Proof. destruct o; [simpl; trivial | reflexivity]. Qed.

Lemma returned_for_each {A} (l : list A) (body : A -> M unit) :
  (forall a, returned (body a) = true) -> returned (for_each l body) = true.
Proof.
  intros H. induction l as [|a l IH]; [reflexivity |].
  simpl. now rewrite returned_seq, H, IH.
Qed.

Lemma all_when Q c (m : M unit) : all Q m -> all Q (when c m).
Proof. destruct c; [trivial | reflexivity]. Qed.

Lemma all_when_some {A} Q (o : option A) (f : A -> M unit) :
  (forall a, all Q (f a)) -> all Q (when_some o f).
Proof. destruct o; [simpl; trivial | reflexivity]. Qed.

Lemma all_for_each {A} Q (l : list A) (body : A -> M unit) :
  (forall a, all Q (body a)) -> all Q (for_each l body).
Proof.
  intros H. induction l as [|a l IH]; [reflexivity |].
  simpl. apply all_seq; [apply H | exact IH].
Qed.

(** Induction along the [prev] pointers. *)
Lemma image_exec_prev_ind (Pr : image_exec_t -> Prop) :
  (forall ie, (forall prev, ie_prev ie = Some prev -> Pr prev) -> Pr ie) ->
  forall ie, Pr ie.
Proof.
  intros H. fix IH 1. intros ie. apply H.
  destruct ie as [? ? ? ? ? ? ? ? ? ? ? ? ? prev]. simpl.
  destruct prev as [q|]; intros p Hp; [| discriminate].
  injection Hp as <-. apply IH.
Qed.

(** ** Functions that cannot fail an assertion, and call-wise invariants *)

Ltac pure_tac :=
  lazymatch goal with
  | |- returned (_ ;; _) = true => apply returned_seq_intro; pure_tac
  | |- returned (when _ _) = true => apply returned_when; pure_tac
  | |- returned (when_some _ _) = true =>
      apply returned_when_some; intros; pure_tac
  | |- returned (for_each _ _) = true =>
      apply returned_for_each; intros; pure_tac
  | |- returned (if ?c then _ else _) = true => destruct c; pure_tac
  | |- returned (match ?o with Some _ => _ | None => _ end) = true =>
      destruct o; pure_tac
  | |- returned (logevt_uid _ _ _ _ _) = true => unfold logevt_uid; pure_tac
  | |- returned (logevt_gid _ _ _ _ _) = true => unfold logevt_gid; pure_tac
  | |- returned (logevt_header _ _) = true => reflexivity
  | |- returned logevt_footer = true => reflexivity
  | |- returned (logevt_image_exec_image _ _ _) = true =>
      unfold logevt_image_exec_image; pure_tac
  | |- _ => reflexivity
  end.

Lemma all_ancestors_loop P cfg Q :
  Q (ListItem "ancestor") = true ->
  (forall ie, all Q (logevt_process_image_exec P cfg ie)) ->
  forall ie depth, all Q (ancestors_loop P cfg depth ie).
Proof.
  intros HQ Hpie ie. induction ie as [ie IH] using image_exec_prev_ind.
  intros depth. destruct ie as [? ? ? ? ? ? ? ? ? ? ? ? ? prev]; simpl in *.
  destruct (0 <? ie_pid0); [| reflexivity].
  destruct (depth =? ancestors cfg); [reflexivity |].
  apply all_seq; [unfold all; simpl; now rewrite HQ |].
  apply all_seq; [apply Hpie |].
  destruct prev as [q|]; [apply IH; reflexivity | reflexivity].
Qed.

Ltac all_tac :=
  lazymatch goal with
  | |- all _ (_ ;; _) => apply all_seq; all_tac
  | |- all _ (when _ _) => apply all_when; all_tac
  | |- all _ (when_some _ _) => apply all_when_some; intros; all_tac
  | |- all _ (for_each _ _) => apply all_for_each; intros; all_tac
  | |- all _ (if ?c then _ else _) => destruct c; all_tac
  | |- all _ (match ?o with Some _ => _ | None => _ end) =>
      destruct o; all_tac
  | |- all _ (logevt_uid _ _ _ _ _) => unfold logevt_uid; all_tac
  | |- all _ (logevt_gid _ _ _ _ _) => unfold logevt_gid; all_tac
  | |- all _ (logevt_image_exec_image _ _ _) =>
      unfold logevt_image_exec_image; all_tac
  | |- all _ (logevt_process_image_exec _ _ _) =>
      unfold logevt_process_image_exec; all_tac
  | |- all _ (logevt_process_image_exec_ancestors _ _ _) =>
      unfold logevt_process_image_exec_ancestors; all_tac
  | |- all _ (ancestors_loop _ _ _ _) =>
      apply all_ancestors_loop; [reflexivity | intros; all_tac]
  | |- all _ (ancestors_loop _ _ _) =>
      intros; apply all_ancestors_loop; [reflexivity | intros; all_tac]
  | |- all _ (logevt_process _ _ _ _ _) => unfold logevt_process; all_tac
  | |- all _ ?m => tryif is_var m then (unfold m; all_tac) else reflexivity
  end.

(** ** C5: the identity resolver *)

(** C5, for user ids and group ids alike.  The numeric id is always emitted
    under the id label, first.  For the sentinel [(uid_t)-1] / [(gid_t)-1]
    the value is the signed integer [-1] and nothing else is emitted, whatever
    the configuration and whatever the name service would answer.  For any
    other id the unsigned id is emitted, followed by the name under the name
    label exactly when resolution is enabled and the lookup finds an entry; a
    lookup miss emits no name and the function returns all the same. *)
Theorem C5_identity_resolver P cfg idlabel namelabel :
  logevt_uid P cfg UID_NONE idlabel namelabel
    = ([DictItem idlabel; ValueInt (-1)], Some tt) /\
  logevt_gid P cfg GID_NONE idlabel namelabel
    = ([DictItem idlabel; ValueInt (-1)], Some tt) /\
  (forall id name,
     id <> UID_NONE ->
     resolve_users_groups cfg = true ->
     getpwuid P id = Some name ->
     logevt_uid P cfg id idlabel namelabel
       = ([DictItem idlabel; ValueUint id;
           DictItem namelabel; ValueString name], Some tt)) /\
  (forall id name,
     id <> GID_NONE ->
     resolve_users_groups cfg = true ->
     getgrgid P id = Some name ->
     logevt_gid P cfg id idlabel namelabel
       = ([DictItem idlabel; ValueUint id;
           DictItem namelabel; ValueString name], Some tt)) /\
  (forall id,
     id <> UID_NONE ->
     resolve_users_groups cfg = false \/ getpwuid P id = None ->
     logevt_uid P cfg id idlabel namelabel
       = ([DictItem idlabel; ValueUint id], Some tt)) /\
  (forall id,
     id <> GID_NONE ->
     resolve_users_groups cfg = false \/ getgrgid P id = None ->
     logevt_gid P cfg id idlabel namelabel
       = ([DictItem idlabel; ValueUint id], Some tt)).
Proof.
  repeat split.
  - intros id name Hid Hres Hpw. unfold logevt_uid.
    apply Z.eqb_neq in Hid. now rewrite Hid, Hres, Hpw.
  - intros id name Hid Hres Hgr. unfold logevt_gid.
    apply Z.eqb_neq in Hid. now rewrite Hid, Hres, Hgr.
  - intros id Hid [Hres | Hpw]; unfold logevt_uid;
      apply Z.eqb_neq in Hid; rewrite Hid.
    + now rewrite Hres.
    + rewrite Hpw. now destruct (resolve_users_groups cfg).
  - intros id Hid [Hres | Hgr]; unfold logevt_gid;
      apply Z.eqb_neq in Hid; rewrite Hid.
    + now rewrite Hres.
    + rewrite Hgr. now destruct (resolve_users_groups cfg).
Qed.

(** On the sample platform uid 0 resolves to root, and uid 502 is unknown to
    the name service. *)
Lemma C5_identity_resolver_witness :
  logevt_uid Sample.platform Sample.config 0 "uid" "uname"
    = ([DictItem "uid"; ValueUint 0; DictItem "uname"; ValueString "root"],
       Some tt) /\
  logevt_gid Sample.platform Sample.config 20 "gid" "gname"
    = ([DictItem "gid"; ValueUint 20; DictItem "gname"; ValueString "staff"],
       Some tt) /\
  logevt_uid Sample.platform Sample.config 502 "uid" "uname"
    = ([DictItem "uid"; ValueUint 502], Some tt) /\
  logevt_gid Sample.platform Sample.config 21 "gid" "gname"
    = ([DictItem "gid"; ValueUint 21], Some tt).
Proof.
  pose proof (C5_identity_resolver Sample.platform Sample.config "uid" "uname")
    as (_ & _ & Hu & _ & Hu' & _).
  pose proof (C5_identity_resolver Sample.platform Sample.config "gid" "gname")
    as (_ & _ & _ & Hg & _ & Hg').
  split; [| split; [| split]].
  - apply Hu; [discriminate | reflexivity | reflexivity].
  - apply Hg; [discriminate | reflexivity | reflexivity].
  - apply Hu'; [discriminate | right; reflexivity].
  - apply Hg'; [discriminate | right; reflexivity].
Defined.

(** ** C1: the record envelope *)

Lemma closes_record_seq (m : M unit) (k : M Z) :
  all inside_record m -> closes_record k -> closes_record (m ;; k).
Proof.
  intros Hm Hk Hret. apply returned_seq_inv in Hret as [Hrm Hrk].
  destruct (Hk Hrk) as (body & Hcalls & Hbody).
  exists (calls m ++ body). split.
  - now rewrite calls_seq_pure, Hcalls, app_assoc.
  - rewrite forallb_app. now rewrite Hm, Hbody.
Qed.

Lemma closes_record_footer : closes_record (logevt_footer ;; ret 0).
Proof. intros _. exists [DictEnd]. split; reflexivity. Qed.

Ltac closes_record_tac :=
  repeat (apply closes_record_seq; [all_tac |]);
  apply closes_record_footer.

Lemma count_app p (a b : trace) : count p (a ++ b) = (count p a + count p b)%nat.
Proof. unfold count. now rewrite filter_app, length_app. Qed.

Lemma count_cons p c (t : trace) :
  count p (c :: t) = ((if p c then 1 else 0) + count p t)%nat.
Proof. unfold count. simpl. now destruct (p c). Qed.

Lemma count_inside_record_begin body :
  forallb inside_record body = true -> count is_record_begin body = 0%nat.
Proof.
  unfold count. induction body as [|c body IH]; [reflexivity |].
  simpl. intros H. apply andb_prop in H as [Hc Hb].
  destruct c; try discriminate; simpl; auto.
Qed.

Lemma count_inside_record_end body :
  forallb inside_record body = true -> count is_record_end body = 0%nat.
Proof.
  unfold count. induction body as [|c body IH]; [reflexivity |].
  simpl. intros H. apply andb_prop in H as [Hc Hb].
  destruct c; try discriminate; simpl; auto.
Qed.

Lemma enveloped_header P hdr (k : M Z) :
  closes_record k ->
  returned (logevt_header P hdr ;; k) = true ->
  enveloped (calls (logevt_header P hdr ;; k)).
Proof.
  intros Hk Hret. apply returned_seq_inv in Hret as [_ Hrk].
  destruct (Hk Hrk) as (body & Hcalls & Hbody).
  rewrite calls_seq_pure by reflexivity. rewrite Hcalls.
  set (h := [DictBegin; DictItem "version"; ValueUint (LOGEVT_VERSION P);
             DictItem "time"; ValueTimespec (tv hdr);
             DictItem "eventcode"; ValueUint (code hdr)]).
  change (calls (logevt_header P hdr)) with ([RecordBegin] ++ h).
  repeat split.
  - rewrite !count_app, (count_inside_record_begin _ Hbody). reflexivity.
  - rewrite !count_app, (count_inside_record_end _ Hbody). reflexivity.
  - exists (h ++ body). split.
    + now rewrite <- !app_assoc.
    + rewrite forallb_app, Hbody. reflexivity.
Qed.

(** C1.  Whatever the event, a serializer that returns has issued exactly one
    [record_begin] and one [record_end], as its first and last call, and the
    first three keys passed to [dict_item] are [version], [time] and
    [eventcode], in this order. *)
Theorem C1_record_envelope P cfg ev :
  returned (logevt P cfg ev) = true ->
  enveloped (calls (logevt P cfg ev)).
Proof.
  destruct ev; simpl;
    apply enveloped_header; closes_record_tac.
Qed.

Lemma C1_record_envelope_witness :
  enveloped (calls (logevt Sample.platform Sample.config
                      (EvImageExec Sample.ls))).
Proof.
  apply (C1_record_envelope Sample.platform Sample.config
           (EvImageExec Sample.ls)).
  vm_compute. reflexivity.
Defined.

(** ** C2: the ancestor list *)

Lemma live_chain ie :
  live (chain ie) =
  if 0 <? ie_pid ie then ie :: live (chain_from (ie_prev ie)) else [].
Proof. destruct ie as [? ? ? ? ? ? ? ? ? ? ? ? ? [q|]]; reflexivity. Qed.

(** The loop visits the first nodes of the live chain, as many as the depth
    limit still allows. *)
Lemma ancestors_loop_for_each P cfg ie :
  forall depth,
    0 <= depth <= ancestors cfg -> ancestors cfg <= SIZE_MAX ->
    ancestors_loop P cfg depth ie =
    for_each (firstn (Z.to_nat (ancestors cfg - depth)) (live (chain ie)))
             (render_ancestor P cfg).
Proof.
  induction ie as [ie IH] using image_exec_prev_ind.
  intros depth Hdepth Hmax. rewrite live_chain.
  destruct ie as [? ? ? ? ? ? ? ? ? ? ? ? ? prev]; simpl in *.
  destruct (0 <? ie_pid0); [| now rewrite firstn_nil].
  destruct (Z.eqb_spec depth (ancestors cfg)) as [-> | Hne].
  - now rewrite Z.sub_diag.
  - replace (Z.to_nat (ancestors cfg - depth))
      with (S (Z.to_nat (ancestors cfg - (depth + 1)))) by lia.
    simpl. unfold render_ancestor at 1. rewrite seq_assoc.
    f_equal. f_equal.
    assert (Hwrap : size_wrap (depth + 1) = depth + 1).
    { unfold size_wrap, SIZE_MAX in *. apply Z.mod_small. lia. }
    destruct prev as [q|]; simpl.
    + rewrite Hwrap. apply IH; [reflexivity | lia | exact Hmax].
    + now rewrite firstn_nil.
Qed.

Lemma ancestors_for_each P cfg ie :
  0 <= ancestors cfg <= SIZE_MAX ->
  logevt_process_image_exec_ancestors P cfg ie =
  list_begin ;;
  for_each (firstn (Z.to_nat (ancestors cfg)) (live (chain_from ie)))
           (render_ancestor P cfg) ;;
  list_end.
Proof.
  intros Hmax. unfold logevt_process_image_exec_ancestors.
  destruct ie as [ie|]; simpl.
  - rewrite ancestors_loop_for_each by lia. now rewrite Z.sub_0_r.
  - now rewrite firstn_nil.
Qed.

Lemma calls_for_each {A} (l : list A) (body : A -> M unit) :
  returned (for_each l body) = true ->
  calls (for_each l body) = flat_map (fun a => calls (body a)) l.
Proof.
  induction l as [|a l IH]; [reflexivity |].
  simpl. intros H. apply returned_seq_inv in H as [Ha Hl].
  now rewrite calls_seq_pure, IH.
Qed.

Lemma count_none p (t : trace) :
  forallb (fun c => negb (p c)) t = true -> count p t = 0%nat.
Proof.
  unfold count. induction t as [|c t IH]; [reflexivity |].
  simpl. intros H. apply andb_prop in H as [Hc Ht].
  apply negb_true_iff in Hc. rewrite Hc. auto.
Qed.

Lemma count_ancestor_entries P cfg (l : list image_exec_t) :
  count is_ancestor_item
    (flat_map (fun a => ListItem "ancestor"
                          :: calls (logevt_process_image_exec P cfg a)) l)
  = List.length l.
Proof.
  induction l as [|a l IH]; [reflexivity |].
  cbn [flat_map].
  rewrite count_app, IH, count_cons.
  rewrite (count_none is_ancestor_item
             (calls (logevt_process_image_exec P cfg a))).
  - reflexivity.
  - change (all not_ancestor_item (logevt_process_image_exec P cfg a)).
    all_tac.
Qed.

(** Breaks [returned (a ;; b ;; ...) = true] into one fact per statement. *)
Ltac split_returned :=
  repeat match goal with
  | H : returned (_ ;; _) = true |- _ =>
      apply returned_seq_inv in H as [? ?]
  end.

(** C2.  With an image exec attached and an ancestor depth [D > 0], a
    process rendering that returns ends with the key [ancestors] and one list.
    The list has one entry per node of [walked], in this order, each being the
    process-context rendering of the node: [walked] is the chain of [prev]
    pointers starting at the predecessor of the attached image exec, cut at
    the first NULL pointer or non-positive pid, and cut again after [D] nodes.
    When more than [D] nodes with positive pids head the chain, exactly [D]
    entries are emitted. *)
Theorem C2_ancestor_list P cfg process processpid ie :
  0 < ancestors cfg <= SIZE_MAX ->
  returned (logevt_process P cfg process processpid (Some ie)) = true ->
  let D := Z.to_nat (ancestors cfg) in
  let walked := firstn D (live (chain_from (ie_prev ie))) in
  let t := calls (logevt_process P cfg process processpid (Some ie)) in
  (exists pre,
     t = pre ++ [DictItem "ancestors"; ListBegin] ++
         flat_map (fun a => ListItem "ancestor"
                     :: calls (logevt_process_image_exec P cfg a)) walked ++
         [ListEnd; DictEnd] /\
     count is_ancestor_item pre = 0%nat) /\
  count is_ancestor_item t = List.length walked /\
  (List.length walked = Nat.min D (List.length (live (chain_from (ie_prev ie))))) /\
  ((D < List.length (live (chain_from (ie_prev ie))))%nat ->
   List.length walked = D).
Proof.
  intros [Hpos Hmax] Hret D walked t.
  assert (Hshape : exists pre,
     t = pre ++ [DictItem "ancestors"; ListBegin] ++
         flat_map (fun a => ListItem "ancestor"
                     :: calls (logevt_process_image_exec P cfg a)) walked ++
         [ListEnd; DictEnd] /\
     count is_ancestor_item pre = 0%nat).
  { subst t. revert Hret. unfold logevt_process.
    set (recon := when _ _). set (cred := if 0 <? processpid then _ else _).
    cbn [when_some]. apply Z.ltb_lt in Hpos. rewrite Hpos. cbn [when].
    set (fork := when _ _).
    rewrite ancestors_for_each by lia. fold D walked.
    rewrite !seq_assoc. intros Hret. split_returned.
    rewrite !calls_seq_pure by assumption.
    match goal with
    | H : returned (for_each _ _) = true |- _ => rewrite (calls_for_each _ _ H)
    end.
    exists (calls dict_begin ++ calls recon ++ calls cred ++ calls fork ++
            calls (dict_item "image") ++
            calls (logevt_process_image_exec P cfg ie)).
    split.
    - rewrite <- !app_assoc. reflexivity.
    - apply count_none.
      rewrite !forallb_app. subst recon cred fork.
      rewrite !andb_true_iff.
      repeat match goal with |- _ /\ _ => split end.
      all: match goal with
           | |- forallb _ (calls ?m) = true =>
               change (all not_ancestor_item m); all_tac
           end. }
  split; [exact Hshape |].
  split; [| split].
  - destruct Hshape as (pre & -> & Hpre).
    rewrite !count_app, Hpre, count_ancestor_entries.
    change (count is_ancestor_item [DictItem "ancestors"; ListBegin])
      with 0%nat.
    change (count is_ancestor_item [ListEnd; DictEnd]) with 0%nat.
    lia.
  - subst walked. apply length_firstn.
  - intros Hlong. subst walked. rewrite length_firstn. lia.
Qed.

Lemma C2_ancestor_list_witness :
  count is_ancestor_item
    (calls (logevt_process Sample.platform Sample.config
              (Some (Sample.proc 4242)) 0 (Some Sample.ls))) = 1%nat.
Proof.
  assert (Hmax : 0 < ancestors Sample.config <= SIZE_MAX)
    by (unfold SIZE_MAX; simpl; lia).
  assert (Hret : returned (logevt_process Sample.platform Sample.config
                             (Some (Sample.proc 4242)) 0 (Some Sample.ls))
                 = true) by (vm_compute; reflexivity).
  pose proof (C2_ancestor_list Sample.platform Sample.config
                (Some (Sample.proc 4242)) 0 Sample.ls Hmax Hret)
    as (_ & Hcount & _ & Hexact).
  rewrite Hcount. apply Hexact. vm_compute. repeat constructor.
Defined.

(** ** Keys of a dictionary *)

Lemma keys_at_flat_app d (t r : trace) :
  forallb is_flat t = true ->
  keys_at d (t ++ r) =
  (if Nat.eqb d 1 then dict_keys t else []) ++ keys_at d r.
Proof.
  induction t as [|c t IH]; simpl.
  - now destruct (Nat.eqb d 1).
  - intros H. apply andb_prop in H as [Hc Ht]. specialize (IH Ht).
    destruct c; try discriminate; simpl; rewrite IH;
      destruct (Nat.eqb d 1); reflexivity.
Qed.

Lemma dict_keys_app (a b : trace) :
  dict_keys (a ++ b) = dict_keys a ++ dict_keys b.
Proof.
  induction a as [|c a IH]; [reflexivity |].
  destruct c; simpl; now rewrite IH.
Qed.

Lemma pick_app ks (a b : trace) : pick ks (a ++ b) = pick ks a ++ pick ks b.
Proof. unfold pick. now rewrite dict_keys_app, filter_app. Qed.

Lemma pick_avoids ks (t : trace) :
  forallb (avoids ks) t = true -> pick ks t = [].
Proof.
  unfold pick. induction t as [|c t IH]; [reflexivity |].
  simpl. intros H. apply andb_prop in H as [Hc Ht].
  destruct c; simpl in *; auto.
  apply negb_true_iff in Hc. rewrite Hc. auto.
Qed.

Lemma pick_all_avoid {A} ks (m : M A) : all (avoids ks) m -> pick ks (calls m) = [].
Proof. apply pick_avoids. Qed.

(** ** C3: hashes of platform binaries *)

Lemma pick_hash_fields P cfg c (h : hashes_t) :
  pick hash_keys
    (calls (when c
       (when (has_flag (hflags cfg) (HASH_MD5 P))
          (dict_item "md5" ;; value_buf_hex (md5 h) (MD5SZ P)) ;;
        when (has_flag (hflags cfg) (HASH_SHA1 P))
          (dict_item "sha1" ;; value_buf_hex (sha1 h) (SHA1SZ P)) ;;
        when (has_flag (hflags cfg) (HASH_SHA256 P))
          (dict_item "sha256" ;; value_buf_hex (sha256 h) (SHA256SZ P)))))
  = if c then configured_hash_keys P cfg else [].
Proof.
  unfold configured_hash_keys.
  destruct c, (has_flag (hflags cfg) (HASH_MD5 P)),
    (has_flag (hflags cfg) (HASH_SHA1 P)),
    (has_flag (hflags cfg) (HASH_SHA256 P)); reflexivity.
Qed.

Lemma hash_condition P cfg ie :
  has_flag (ie_flags ie) (EIFLAG_HASHES P) = true ->
  has_flag (ie_flags ie) (EIFLAG_HASHES P) &&
    (negb (omit_apple_hashes cfg) ||
     match ie_codesign ie with
     | Some cs => negb (codesign_is_apple_system P cs)
     | None => true
     end)
  = negb (hashes_suppressed P cfg ie).
Proof.
  intros ->. unfold hashes_suppressed.
  destruct (omit_apple_hashes cfg), (ie_codesign ie) as [cs|];
    simpl; try reflexivity.
Qed.

Ltac flat_tac :=
  match goal with
  | |- forallb is_flat (calls ?m) = true => change (all is_flat m); all_tac
  end.

Lemma fold_pick ks (t : trace) :
  filter (fun k => mem k ks) (dict_keys t) = pick ks t.
Proof. reflexivity. Qed.

(** Case analysis on every condition of the statements in the goal. *)
Ltac case_conditions :=
  repeat match goal with
  | |- context [when ?c _] => destruct c; cbn [when]
  | |- context [assert (match ?o with Some _ => _ | None => _ end)] =>
      destruct o
  | |- context [when_some ?o _] => destruct o; cbn [when_some]
  end.

(** The keys a script adds to the dictionary of its interpreter, in the
    process-context rendering: the key [script] alone, also when the
    assertion on the script fails. *)
Ltac own_script_keys :=
  match goal with
  | |- context [keys_at 1 (calls (when_some ?s ?f ;; dict_end))] =>
      let H := fresh "Hscript" in
      assert (H : keys_at 1 (calls (when_some s f ;; dict_end)) =
                  match s with Some _ => ["script"] | None => [] end)
        by (destruct s; [cbn [when_some]; case_conditions; reflexivity
                        | reflexivity]);
      rewrite H; clear H
  end.

Lemma own_hash_keys_object_image P cfg ie :
  has_flag (ie_flags ie) (EIFLAG_HASHES P) = true ->
  pick_own hash_keys (calls (logevt_image_exec_image P cfg ie)) =
  if hashes_suppressed P cfg ie then [] else configured_hash_keys P cfg.
Proof.
  intros Hhashes. unfold logevt_image_exec_image, pick_own, own_keys.
  rewrite (hash_condition P cfg ie Hhashes).
  rewrite !calls_seq_pure by pure_tac.
  change (calls dict_begin) with [DictBegin]. cbn [app keys_at].
  rewrite !keys_at_flat_app by flat_tac.
  cbn [Nat.eqb]. rewrite !filter_app, !fold_pick.
  rewrite pick_hash_fields.
  rewrite !pick_all_avoid by all_tac.
  destruct (hashes_suppressed P cfg ie); simpl; now rewrite ?app_nil_r.
Qed.

Lemma own_hash_keys_process_context P cfg ie :
  has_flag (ie_flags ie) (EIFLAG_HASHES P) = true ->
  pick_own hash_keys (calls (logevt_process_image_exec P cfg ie)) =
  if hashes_suppressed P cfg ie then [] else configured_hash_keys P cfg.
Proof.
  intros Hhashes. unfold logevt_process_image_exec, pick_own, own_keys.
  rewrite (hash_condition P cfg ie Hhashes).
  rewrite !calls_seq_pure by pure_tac.
  change (calls dict_begin) with [DictBegin]. cbn [app keys_at].
  rewrite !keys_at_flat_app by flat_tac.
  own_script_keys.
  cbn [Nat.eqb]. rewrite !filter_app, !fold_pick.
  rewrite pick_hash_fields.
  rewrite !pick_all_avoid by all_tac.
  destruct (hashes_suppressed P cfg ie), (ie_script ie);
    simpl; now rewrite ?app_nil_r.
Qed.

(** C3.  For an image exec that carries hashes, in the object-image and in
    the process-context rendering alike, the hash fields of the image's own
    dictionary are those selected by the configured hash flags, unless the
    hashes are suppressed, in which case there are none.  The hashes are
    suppressed exactly when the omission switch is set and the image carries
    a signature recognized as the platform vendor's; with the switch
    disabled the hash fields are emitted whatever the signature.  Each
    selected hash key is in the dictionary if and only if the hashes are not
    suppressed. *)
Theorem C3_platform_hashes P cfg ie :
  has_flag (ie_flags ie) (EIFLAG_HASHES P) = true ->
  let object :=
    pick_own hash_keys (calls (logevt_image_exec_image P cfg ie)) in
  let context :=
    pick_own hash_keys (calls (logevt_process_image_exec P cfg ie)) in
  (object = if hashes_suppressed P cfg ie
            then [] else configured_hash_keys P cfg) /\
  (context = if hashes_suppressed P cfg ie
             then [] else configured_hash_keys P cfg) /\
  (omit_apple_hashes cfg = false ->
   object = configured_hash_keys P cfg /\
   context = configured_hash_keys P cfg) /\
  (forall k,
     In k (configured_hash_keys P cfg) ->
     (In k object <-> hashes_suppressed P cfg ie = false) /\
     (In k context <-> hashes_suppressed P cfg ie = false)) /\
  (hashes_suppressed P cfg ie = true <->
   omit_apple_hashes cfg = true /\
   exists cs, ie_codesign ie = Some cs /\
              codesign_is_apple_system P cs = true).
Proof.
  intros Hhashes object context. subst object context.
  rewrite (own_hash_keys_object_image P cfg ie Hhashes).
  rewrite (own_hash_keys_process_context P cfg ie Hhashes).
  split; [reflexivity |]. split; [reflexivity |].
  split; [| split; [| split]].
  - intros Hoff. unfold hashes_suppressed. now rewrite Hoff.
  - intros k Hk.
    destruct (hashes_suppressed P cfg ie); simpl; intuition congruence.
  - intros H. split.
    + unfold hashes_suppressed in H. now apply andb_prop in H.
    + unfold hashes_suppressed in H. apply andb_prop in H as [_ H].
      destruct (ie_codesign ie) as [cs|]; [now exists cs | discriminate].
  - intros (Homit & cs & Hcs & Happle). unfold hashes_suppressed.
    now rewrite Homit, Hcs, Happle.
Qed.

(** On the sample configuration (SHA-256 only, omission switch set), the
    unsigned [tool] keeps its hash in both renderings. *)
Lemma C3_platform_hashes_witness :
  pick_own hash_keys
    (calls (logevt_image_exec_image Sample.platform Sample.config Sample.tool))
    = ["sha256"] /\
  pick_own hash_keys
    (calls (logevt_process_image_exec Sample.platform Sample.config
              Sample.tool))
    = ["sha256"].
Proof.
  assert (H : has_flag (ie_flags Sample.tool)
                (EIFLAG_HASHES Sample.platform) = true) by reflexivity.
  pose proof (C3_platform_hashes Sample.platform Sample.config Sample.tool H)
    as (Hobject & Hcontext & _).
  split; [rewrite Hobject | rewrite Hcontext]; reflexivity.
Defined.

(** ** C4: signature fields *)

Lemma avoided_key_not_in {A} k ks (m : M A) :
  mem k ks = true -> all (avoids ks) m -> ~ In (DictItem k) (calls m).
Proof.
  intros Hk Hall Hin. unfold all in Hall.
  rewrite forallb_forall in Hall. specialize (Hall _ Hin).
  simpl in Hall. now rewrite Hk in Hall.
Qed.

(** C4.  With a code signature attached, the object-image rendering emits
    the key [signature], then [origin], [cdhash], [ident], [teamid] and
    [certcn], each when present, whether the signature validated or not.  The
    process-context rendering emits, of all these keys, only [ident] and
    [teamid], each when present, and only under a signature that
    [codesign_is_good] accepts; without a signature, or with one that is not
    good, it emits none of them.  It never emits the key [signature]. *)
Theorem C4_signature_fields P cfg ie :
  (forall cs,
     ie_codesign ie = Some cs ->
     pick signature_keys (calls (logevt_image_exec_image P cfg ie)) =
     ["signature"] ++
     (if cs_origin cs =? 0 then [] else ["origin"]) ++
     optional_key (cs_cdhash cs) "cdhash" ++
     optional_key (cs_ident cs) "ident" ++
     optional_key (cs_teamid cs) "teamid" ++
     optional_key (cs_certcn cs) "certcn") /\
  pick signature_keys (calls (logevt_process_image_exec P cfg ie)) =
    match ie_codesign ie with
    | Some cs =>
        if codesign_is_good P cs
        then optional_key (cs_ident cs) "ident" ++
             optional_key (cs_teamid cs) "teamid"
        else []
    | None => []
    end /\
  ~ In (DictItem "signature") (calls (logevt_process_image_exec P cfg ie)).
Proof.
  split; [| split].
  - intros cs Hcs. unfold logevt_image_exec_image.
    rewrite Hcs. cbn [when_some].
    rewrite !calls_seq_pure by pure_tac.
    rewrite !pick_app.
    rewrite !pick_all_avoid by all_tac.
    destruct (cs_origin cs =? 0), (cs_cdhash cs), (cs_ident cs),
      (cs_teamid cs), (cs_certcn cs); reflexivity.
  - unfold logevt_process_image_exec.
    rewrite !calls_seq_pure by pure_tac.
    rewrite !pick_app.
    rewrite !pick_all_avoid by all_tac.
    rewrite (pick_all_avoid (ks := signature_keys)
               (m := when_some (ie_script ie) _ ;; dict_end)) by all_tac.
    destruct (ie_codesign ie) as [cs|]; [| reflexivity].
    cbn [when_some].
    destruct (codesign_is_good P cs), (cs_ident cs), (cs_teamid cs);
      reflexivity.
  - apply (avoided_key_not_in "signature" (ks := ["signature"]));
      [reflexivity | all_tac].
Qed.

Lemma C4_signature_fields_witness :
  pick signature_keys
    (calls (logevt_image_exec_image Sample.platform Sample.config Sample.ls))
  = ["signature"; "origin"; "cdhash"; "ident"; "certcn"].
Proof.
  pose proof (C4_signature_fields Sample.platform Sample.config Sample.ls)
    as (Hobject & _).
  rewrite (Hobject (Sample.apple_signature "com.apple.ls") eq_refl).
  reflexivity.
Defined.

(** ** C6: redaction switches *)

Lemma drop_items_avoid_app ks (a b : trace) :
  forallb (avoids ks) a = true ->
  drop_items ks (a ++ b) = a ++ drop_items ks b.
Proof.
  induction a as [|c a IH]; [reflexivity |].
  simpl. intros H. apply andb_prop in H as [Hc Ha]. specialize (IH Ha).
  destruct c; simpl in *; rewrite ?IH; try reflexivity.
  apply negb_true_iff in Hc. now rewrite Hc.
Qed.

Lemma drop_items_avoid ks (a : trace) :
  forallb (avoids ks) a = true -> drop_items ks a = a.
Proof.
  intros H. rewrite <- (app_nil_r a) at 1.
  rewrite drop_items_avoid_app by exact H. simpl. apply app_nil_r.
Qed.

Lemma drop_items_field ks k (m : M unit) v (t : trace) :
  mem k ks = true -> calls m = [v] ->
  drop_items ks (calls (dict_item k) ++ calls m ++ t) = drop_items ks t.
Proof. intros Hk ->. simpl. now rewrite Hk. Qed.

Lemma drop_items_gid P cfg ks gid il nl (t : trace) :
  mem il ks = true -> mem nl ks = true ->
  drop_items ks (calls (logevt_gid P cfg gid il nl) ++ t) = drop_items ks t.
Proof.
  intros Hil Hnl. unfold logevt_gid.
  destruct (gid =? GID_NONE), (resolve_users_groups cfg), (getgrgid P gid);
    simpl; now rewrite Hil, ?Hnl.
Qed.

Lemma id_label_emitted_gid P cfg gid il nl :
  In (DictItem il) (calls (logevt_gid P cfg gid il nl)).
Proof.
  unfold logevt_gid. rewrite calls_seq_pure by reflexivity. now left.
Qed.

(** The projections of the configuration go through the setters. *)
Ltac cfg_simpl :=
  cbn [set_omit_mode set_omit_size set_omit_mtime set_omit_ctime
       set_omit_btime set_omit_sid set_omit_groups
       omit_mode omit_size omit_mtime omit_ctime omit_btime omit_sid
       omit_groups omit_apple_hashes resolve_users_groups hflags ancestors
       negb when].

(** A key is emitted by one of the statements of a sequence. *)
Ltac emitted_tac :=
  repeat lazymatch goal with
  | |- In (DictItem ?k) (calls (dict_item ?k) ++ _) =>
      apply in_or_app; left; left; reflexivity
  | |- In (DictItem ?k) (calls (logevt_gid _ _ _ ?k _) ++ _) =>
      apply in_or_app; left; apply id_label_emitted_gid
  | |- In _ (_ ++ _) => apply in_or_app; right
  end.

Ltac avoids_tac :=
  match goal with
  | |- forallb (avoids ?ks) (calls ?m) = true =>
      change (all (avoids ks) m); all_tac
  end.

(** What each function reads from the configuration. *)
Lemma logevt_uid_cfg P c1 c2 uid il nl :
  resolve_users_groups c1 = resolve_users_groups c2 ->
  logevt_uid P c1 uid il nl = logevt_uid P c2 uid il nl.
Proof. unfold logevt_uid. now intros ->. Qed.

Lemma logevt_gid_cfg P c1 c2 gid il nl :
  resolve_users_groups c1 = resolve_users_groups c2 ->
  logevt_gid P c1 gid il nl = logevt_gid P c2 gid il nl.
Proof. unfold logevt_gid. now intros ->. Qed.

Lemma logevt_process_image_exec_cfg P c1 c2 ie :
  omit_apple_hashes c1 = omit_apple_hashes c2 ->
  hflags c1 = hflags c2 ->
  logevt_process_image_exec P c1 ie = logevt_process_image_exec P c2 ie.
Proof. unfold logevt_process_image_exec. now intros -> ->. Qed.

Lemma ancestors_loop_cfg P c1 c2 ie :
  omit_apple_hashes c1 = omit_apple_hashes c2 ->
  hflags c1 = hflags c2 ->
  ancestors c1 = ancestors c2 ->
  forall depth, ancestors_loop P c1 depth ie = ancestors_loop P c2 depth ie.
Proof.
  intros Ho Hh Ha. induction ie as [ie IH] using image_exec_prev_ind.
  intros depth. destruct ie as [? ? ? ? ? ? ? ? ? ? ? ? ? prev].
  cbn [ancestors_loop ie_pid ie_prev] in *.
  rewrite Ha, (logevt_process_image_exec_cfg P c1 c2 _ Ho Hh).
  destruct prev as [q|]; [| reflexivity].
  now rewrite (IH q eq_refl).
Qed.

Lemma logevt_process_image_exec_ancestors_cfg P c1 c2 ie :
  omit_apple_hashes c1 = omit_apple_hashes c2 ->
  hflags c1 = hflags c2 ->
  ancestors c1 = ancestors c2 ->
  logevt_process_image_exec_ancestors P c1 ie =
  logevt_process_image_exec_ancestors P c2 ie.
Proof.
  intros Ho Hh Ha. unfold logevt_process_image_exec_ancestors.
  destruct ie as [ie|]; [| reflexivity].
  cbn [when_some]. now rewrite (ancestors_loop_cfg P c1 c2 ie Ho Hh Ha).
Qed.

(** Brings every call of a helper under the configuration [cfg]. *)
Ltac cfg_norm cfg :=
  repeat match goal with
  | |- context [logevt_uid ?P ?c _ _ _] =>
      tryif constr_eq c cfg then fail
      else rewrite !(logevt_uid_cfg P c cfg) by reflexivity
  | |- context [logevt_gid ?P ?c _ _ _] =>
      tryif constr_eq c cfg then fail
      else rewrite !(logevt_gid_cfg P c cfg) by reflexivity
  | |- context [logevt_process_image_exec ?P ?c _] =>
      tryif constr_eq c cfg then fail
      else rewrite !(logevt_process_image_exec_cfg P c cfg)
             by reflexivity
  | |- context [logevt_process_image_exec_ancestors ?P ?c _] =>
      tryif constr_eq c cfg then fail
      else rewrite !(logevt_process_image_exec_ancestors_cfg P c cfg)
             by reflexivity
  end.

Lemma outcome_pure (m : M unit) : returned m = true -> outcome m = Some tt.
Proof.
  unfold returned. destruct (outcome m) as [[]|]; [reflexivity | discriminate].
Qed.

Lemma outcome_seq_pure {B} (m : M unit) (k : M B) :
  returned m = true -> outcome (m ;; k) = outcome k.
Proof. intros H. now rewrite outcome_seq, H. Qed.

Ltac redacts_image cfg Hdata :=
  unfold redacts, logevt_image_exec_image;
  rewrite ?Hdata; cfg_simpl; cfg_norm cfg;
  rewrite !seq_assoc;
  rewrite !calls_seq_pure by pure_tac;
  split; [| split; [| split]];
  [ emitted_tac
  | rewrite !pick_app; rewrite !pick_all_avoid by all_tac; reflexivity
  | rewrite !drop_items_avoid_app by avoids_tac
  | now rewrite !outcome_pure by pure_tac
  ].

Ltac drop_rest :=
  rewrite ?drop_items_avoid_app by avoids_tac;
  rewrite drop_items_avoid by avoids_tac;
  reflexivity.

Ltac drop_field :=
  erewrite drop_items_field; [| reflexivity | reflexivity];
  drop_rest.

Lemma redacts_mode P cfg ie :
  has_flag (ie_flags ie) (Z.lor (EIFLAG_STAT P) (EIFLAG_ATTR P)) = true ->
  redacts "mode" ["mode"]
    (logevt_image_exec_image P (set_omit_mode false cfg) ie)
    (logevt_image_exec_image P (set_omit_mode true cfg) ie).
Proof. intros Hdata. redacts_image cfg Hdata. drop_field. Qed.

Lemma redacts_size P cfg ie :
  has_flag (ie_flags ie) (EIFLAG_STAT P) = true ->
  redacts "size" ["size"]
    (logevt_image_exec_image P (set_omit_size false cfg) ie)
    (logevt_image_exec_image P (set_omit_size true cfg) ie).
Proof. intros Hdata. redacts_image cfg Hdata. drop_field. Qed.

Lemma redacts_mtime P cfg ie :
  has_flag (ie_flags ie) (EIFLAG_STAT P) = true ->
  redacts "mtime" ["mtime"]
    (logevt_image_exec_image P (set_omit_mtime false cfg) ie)
    (logevt_image_exec_image P (set_omit_mtime true cfg) ie).
Proof. intros Hdata. redacts_image cfg Hdata. drop_field. Qed.

Lemma redacts_ctime P cfg ie :
  has_flag (ie_flags ie) (EIFLAG_STAT P) = true ->
  redacts "ctime" ["ctime"]
    (logevt_image_exec_image P (set_omit_ctime false cfg) ie)
    (logevt_image_exec_image P (set_omit_ctime true cfg) ie).
Proof. intros Hdata. redacts_image cfg Hdata. drop_field. Qed.

Lemma redacts_btime P cfg ie :
  has_flag (ie_flags ie) (EIFLAG_STAT P) = true ->
  redacts "btime" ["btime"]
    (logevt_image_exec_image P (set_omit_btime false cfg) ie)
    (logevt_image_exec_image P (set_omit_btime true cfg) ie).
Proof. intros Hdata. redacts_image cfg Hdata. drop_field. Qed.

Lemma redacts_groups_image P cfg ie :
  has_flag (ie_flags ie) (Z.lor (EIFLAG_STAT P) (EIFLAG_ATTR P)) = true ->
  redacts "gid" ["gid"; "gname"]
    (logevt_image_exec_image P (set_omit_groups false cfg) ie)
    (logevt_image_exec_image P (set_omit_groups true cfg) ie).
Proof.
  intros Hdata. redacts_image cfg Hdata.
  rewrite drop_items_gid by reflexivity. drop_rest.
Qed.

(** The image part of a process rendering is kept whole: [tail] stands for
    the statements from the image rendering on. *)
Ltac redacts_parts :=
  split; [| split; [| split]];
  [ emitted_tac
  | rewrite !pick_app; rewrite !pick_all_avoid by all_tac; reflexivity
  | rewrite !drop_items_avoid_app by avoids_tac
  | now rewrite !outcome_seq_pure by pure_tac
  ].

Ltac redacts_process cfg Hpid ie :=
  unfold redacts, logevt_process;
  rewrite Hpid; destruct ie; cbn [when_some]; cfg_simpl; cfg_norm cfg;
  rewrite ?seq_assoc;
  try (set (tail := logevt_process_image_exec _ _ _ ;; _));
  rewrite !calls_seq_pure by pure_tac;
  redacts_parts.

Lemma redacts_sid P cfg process processpid ie :
  (0 <? processpid) = false ->
  redacts "sid" ["sid"]
    (logevt_process P (set_omit_sid false cfg) (Some process) processpid ie)
    (logevt_process P (set_omit_sid true cfg) (Some process) processpid ie).
Proof. intros Hpid. redacts_process cfg Hpid ie; drop_field. Qed.

Lemma redacts_groups_process P cfg process processpid ie :
  (0 <? processpid) = false ->
  redacts "egid" ["egid"; "egname"; "rgid"; "rgname"]
    (logevt_process P (set_omit_groups false cfg) (Some process) processpid ie)
    (logevt_process P (set_omit_groups true cfg) (Some process) processpid ie).
Proof.
  intros Hpid. redacts_process cfg Hpid ie.
  all: rewrite drop_items_gid by reflexivity;
    rewrite ?drop_items_avoid_app by avoids_tac;
    rewrite drop_items_gid by reflexivity;
    drop_rest.
Qed.

Lemma rgid_shown P cfg process processpid ie :
  (0 <? processpid) = false ->
  In (DictItem "rgid")
     (calls (logevt_process P (set_omit_groups false cfg) (Some process)
               processpid ie)).
Proof.
  intros Hpid. unfold logevt_process.
  rewrite Hpid; destruct ie; cbn [when_some]; cfg_simpl;
    rewrite ?seq_assoc;
    try (set (tail := logevt_process_image_exec _ _ _ ;; _));
    rewrite !calls_seq_pure by pure_tac; emitted_tac.
Qed.

(** C6.  Each redaction switch, on a descriptor that holds the data it
    gates.  With the switch off the gated key is emitted; with the switch on
    none of the gated keys is; the calls issued with the switch on are those
    issued with the switch off, less the items of the gated keys, every other
    call being the same and in the same place; and both runs end the same
    way.  The data is present for [mode] and the group id of an image when
    the stat or the attribute flag is set, for [size] and the three times
    when the stat flag is set, and for the session id and the effective and
    real group ids of a process when the full process descriptor is used. *)
Theorem C6_redaction_switches P cfg :
  (forall ie,
     has_flag (ie_flags ie) (Z.lor (EIFLAG_STAT P) (EIFLAG_ATTR P)) = true ->
     redacts "mode" ["mode"]
       (logevt_image_exec_image P (set_omit_mode false cfg) ie)
       (logevt_image_exec_image P (set_omit_mode true cfg) ie) /\
     redacts "gid" ["gid"; "gname"]
       (logevt_image_exec_image P (set_omit_groups false cfg) ie)
       (logevt_image_exec_image P (set_omit_groups true cfg) ie)) /\
  (forall ie,
     has_flag (ie_flags ie) (EIFLAG_STAT P) = true ->
     redacts "size" ["size"]
       (logevt_image_exec_image P (set_omit_size false cfg) ie)
       (logevt_image_exec_image P (set_omit_size true cfg) ie) /\
     redacts "mtime" ["mtime"]
       (logevt_image_exec_image P (set_omit_mtime false cfg) ie)
       (logevt_image_exec_image P (set_omit_mtime true cfg) ie) /\
     redacts "ctime" ["ctime"]
       (logevt_image_exec_image P (set_omit_ctime false cfg) ie)
       (logevt_image_exec_image P (set_omit_ctime true cfg) ie) /\
     redacts "btime" ["btime"]
       (logevt_image_exec_image P (set_omit_btime false cfg) ie)
       (logevt_image_exec_image P (set_omit_btime true cfg) ie)) /\
  (forall process processpid ie,
     processpid <= 0 ->
     redacts "sid" ["sid"]
       (logevt_process P (set_omit_sid false cfg) (Some process)
          processpid ie)
       (logevt_process P (set_omit_sid true cfg) (Some process)
          processpid ie) /\
     redacts "egid" ["egid"; "egname"; "rgid"; "rgname"]
       (logevt_process P (set_omit_groups false cfg) (Some process)
          processpid ie)
       (logevt_process P (set_omit_groups true cfg) (Some process)
          processpid ie) /\
     In (DictItem "rgid")
        (calls (logevt_process P (set_omit_groups false cfg) (Some process)
                  processpid ie))).
Proof.
  split; [| split].
  - intros ie Hdata. split.
    + now apply redacts_mode.
    + now apply redacts_groups_image.
  - intros ie Hdata. split; [| split; [| split]].
    + now apply redacts_size.
    + now apply redacts_mtime.
    + now apply redacts_ctime.
    + now apply redacts_btime.
  - intros process processpid ie Hpid.
    assert (Hpid' : (0 <? processpid) = false) by (apply Z.ltb_ge; lia).
    split; [| split].
    + now apply redacts_sid.
    + now apply redacts_groups_process.
    + now apply rgid_shown.
Qed.

(** The image [ls] of the samples has stat data; the process of pid 4242 is
    rendered from its full descriptor. *)
Lemma C6_redaction_switches_witness :
  redacts "mode" ["mode"]
    (logevt_image_exec_image Sample.platform
       (set_omit_mode false Sample.config) Sample.ls)
    (logevt_image_exec_image Sample.platform
       (set_omit_mode true Sample.config) Sample.ls) /\
  redacts "btime" ["btime"]
    (logevt_image_exec_image Sample.platform
       (set_omit_btime false Sample.config) Sample.ls)
    (logevt_image_exec_image Sample.platform
       (set_omit_btime true Sample.config) Sample.ls) /\
  redacts "sid" ["sid"]
    (logevt_process Sample.platform (set_omit_sid false Sample.config)
       (Some (Sample.proc 4242)) 0 (Some Sample.ls))
    (logevt_process Sample.platform (set_omit_sid true Sample.config)
       (Some (Sample.proc 4242)) 0 (Some Sample.ls)).
Proof.
  pose proof (C6_redaction_switches Sample.platform Sample.config)
    as (Hattr & Hstat & Hproc).
  split; [| split].
  - apply Hattr. reflexivity.
  - apply Hstat. reflexivity.
  - apply Hproc. lia.
Defined.

(** ** C7: pid and credentials of a process *)

Lemma process_object_pid P cfg process processpid ie :
  0 < processpid ->
  exists tail,
    calls (logevt_process P cfg process processpid ie) =
      DictBegin :: reconstructed_field P ie ++
      [DictItem "pid"; ValueInt processpid] ++ tail /\
    pick identity_keys tail = [].
Proof.
  intros Hpid. apply Z.ltb_lt in Hpid.
  unfold logevt_process, reconstructed_field. rewrite Hpid.
  destruct ie as [ie|]; cbn [when_some]; rewrite ?seq_assoc.
  - set (tail := when (0 <? tv_sec _) _ ;; _).
    rewrite !calls_seq_pure by pure_tac.
    exists (calls tail). split.
    + now destruct (has_flag (ie_flags ie) (EIFLAG_PIDLOOKUP P)).
    + apply pick_all_avoid. all_tac.
  - rewrite !calls_seq_pure by pure_tac.
    exists (calls dict_end). split; reflexivity.
Qed.

Lemma process_full_descriptor P cfg p processpid ie :
  processpid <= 0 ->
  exists tail,
    calls (logevt_process P cfg (Some p) processpid ie) =
      DictBegin :: reconstructed_field P ie ++
      [DictItem "pid"; ValueInt (pid p)] ++
      calls (logevt_uid P cfg (auid p) "auid" "auname") ++
      calls (logevt_uid P cfg (euid p) "euid" "euname") ++
      (if omit_groups cfg then []
       else calls (logevt_gid P cfg (egid p) "egid" "egname")) ++
      calls (logevt_uid P cfg (ruid p) "ruid" "runame") ++
      (if omit_groups cfg then []
       else calls (logevt_gid P cfg (rgid p) "rgid" "rgname")) ++
      (if omit_sid cfg then [] else [DictItem "sid"; ValueUint (sid p)]) ++
      (if dev p =? DEV_NONE then []
       else [DictItem "dev"; ValueTtydev (dev p)]) ++
      (if ipaddr_is_empty P (addr p) then []
       else [DictItem "addr"; ValueString (ipaddrtoa P (addr p))]) ++
      tail /\
    pick identity_keys tail = [].
Proof.
  intros Hpid. assert (Hpid' : (0 <? processpid) = false)
    by (apply Z.ltb_ge; lia).
  unfold logevt_process, reconstructed_field. rewrite Hpid'.
  destruct ie as [ie|]; cbn [when_some]; rewrite ?seq_assoc.
  - set (tail := when (0 <? tv_sec _) _ ;; _).
    rewrite !calls_seq_pure by pure_tac.
    exists (calls tail). split.
    + now destruct (has_flag (ie_flags ie) (EIFLAG_PIDLOOKUP P)),
        (omit_groups cfg), (omit_sid cfg), (dev p =? DEV_NONE),
        (ipaddr_is_empty P (addr p)).
    + apply pick_all_avoid. all_tac.
  - rewrite !calls_seq_pure by pure_tac.
    exists (calls dict_end). split; [| reflexivity].
    now destruct (omit_groups cfg), (omit_sid cfg), (dev p =? DEV_NONE),
      (ipaddr_is_empty P (addr p)).
Qed.

Lemma process_no_identity P cfg processpid ie :
  processpid <= 0 ->
  pick identity_keys (calls (logevt_process P cfg None processpid ie)) = [].
Proof.
  intros Hpid. assert (Hpid' : (0 <? processpid) = false)
    by (apply Z.ltb_ge; lia).
  unfold logevt_process. rewrite Hpid'. cbn [when_some].
  apply pick_all_avoid. all_tac.
Qed.

(** C7.  On the object-pid path ([processpid > 0]) the process dictionary
    opens with the optional [reconstructed] field and the item [pid] holding
    [processpid]; no other [pid] and none of the credential keys follows, and
    the process descriptor is not read at all.  Otherwise, with a process
    descriptor, the item [pid] holds the descriptor's pid and is followed, in
    this order, by what [logevt_uid] and [logevt_gid] emit for auid, euid,
    egid, ruid and rgid (the group ids unless [omit_groups] is set), the
    session id unless [omit_sid] is set, the terminal unless it is
    [(dev_t)-1], and the address unless it is empty; what follows holds none
    of these keys.  With neither, no pid and no credential is emitted. *)
Theorem C7_process_identity P cfg process processpid ie :
  (0 < processpid ->
   (exists tail,
      calls (logevt_process P cfg process processpid ie) =
        DictBegin :: reconstructed_field P ie ++
        [DictItem "pid"; ValueInt processpid] ++ tail /\
      pick identity_keys tail = []) /\
   (forall process',
      logevt_process P cfg process' processpid ie =
      logevt_process P cfg process processpid ie)) /\
  (processpid <= 0 ->
   match process with
   | Some p =>
       exists tail,
         calls (logevt_process P cfg process processpid ie) =
           DictBegin :: reconstructed_field P ie ++
           [DictItem "pid"; ValueInt (pid p)] ++
           calls (logevt_uid P cfg (auid p) "auid" "auname") ++
           calls (logevt_uid P cfg (euid p) "euid" "euname") ++
           (if omit_groups cfg then []
            else calls (logevt_gid P cfg (egid p) "egid" "egname")) ++
           calls (logevt_uid P cfg (ruid p) "ruid" "runame") ++
           (if omit_groups cfg then []
            else calls (logevt_gid P cfg (rgid p) "rgid" "rgname")) ++
           (if omit_sid cfg then []
            else [DictItem "sid"; ValueUint (sid p)]) ++
           (if dev p =? DEV_NONE then []
            else [DictItem "dev"; ValueTtydev (dev p)]) ++
           (if ipaddr_is_empty P (addr p) then []
            else [DictItem "addr"; ValueString (ipaddrtoa P (addr p))]) ++
           tail /\
         pick identity_keys tail = []
   | None =>
       pick identity_keys
         (calls (logevt_process P cfg process processpid ie)) = []
   end).
Proof.
  split.
  - intros Hpid. split; [now apply process_object_pid |].
    intros process'. unfold logevt_process.
    apply Z.ltb_lt in Hpid. now rewrite Hpid.
  - intros Hpid. destruct process as [p|].
    + now apply process_full_descriptor.
    + now apply process_no_identity.
Qed.

Lemma C7_process_identity_witness :
  exists tail,
    calls (logevt_process Sample.platform Sample.config
             (Some (Sample.proc 4242)) 4300 (Some Sample.tool)) =
      DictBegin :: [DictItem "pid"; ValueInt 4300] ++ tail /\
    pick identity_keys tail = [].
Proof.
  assert (Hpid : 0 < 4300) by lia.
  pose proof (C7_process_identity Sample.platform Sample.config
                (Some (Sample.proc 4242)) 4300 (Some Sample.tool))
    as (Hobject & _).
  destruct (Hobject Hpid) as (Htail & _). exact Htail.
Defined.

(** ** C8: scripts and signatures *)

Lemma returned_process_image_exec P cfg ie :
  returned (logevt_process_image_exec P cfg ie) = script_unsigned ie.
Proof.
  unfold logevt_process_image_exec, script_unsigned.
  rewrite !returned_seq_pure by pure_tac.
  destruct (ie_script ie) as [script|]; [| reflexivity].
  cbn [when_some]. rewrite !seq_assoc.
  rewrite !returned_seq_pure by pure_tac.
  rewrite returned_seq.
  destruct (ie_codesign script); [reflexivity |].
  cbn [assert returned outcome snd andb].
  pure_tac.
Qed.

Lemma ends_with_app (a t l : trace) :
  (exists pre, t = pre ++ l) -> exists pre, a ++ t = pre ++ l.
Proof. intros (pre & ->). exists (a ++ pre). apply app_assoc. Qed.

(** The process-context rendering stops at the assertion when the script
    carries a signature: the calls end with the path of the script, and no
    signature key of the script is emitted. *)
Lemma process_context_signed_script_aborts P cfg ie script cs :
  ie_script ie = Some script ->
  ie_codesign script = Some cs ->
  outcome (logevt_process_image_exec P cfg ie) = None /\
  exists pre,
    calls (logevt_process_image_exec P cfg ie) =
      pre ++ [DictItem "script"; DictBegin;
              DictItem "path"; ValueString (ie_path script)].
Proof.
  intros Hscript Hcs. split.
  - pose proof (returned_process_image_exec P cfg ie) as H.
    unfold script_unsigned in H. rewrite Hscript, Hcs in H.
    unfold returned in H.
    now destruct (outcome (logevt_process_image_exec P cfg ie)).
  - unfold logevt_process_image_exec. rewrite Hscript. cbn [when_some].
    rewrite Hcs. rewrite !seq_assoc.
    rewrite !calls_seq_pure by pure_tac.
    repeat first [ now exists [] | apply ends_with_app ].
Qed.

Lemma within_app (a t x y : trace) :
  (exists before after, t = before ++ x ++ y ++ after) ->
  exists before after, a ++ t = before ++ x ++ y ++ after.
Proof.
  intros (before & after & ->). exists (a ++ before), after.
  apply app_assoc.
Qed.

(** The object-image rendering has no assertion on the script: whatever the
    event, a script that carries a signature is rendered with its signature
    fields under the key [script] of the record. *)
Lemma image_exec_renders_signed_script P cfg ie script cs :
  ie_script ie = Some script ->
  ie_codesign script = Some cs ->
  (exists before after,
     calls (logevt_image_exec P cfg ie) =
       before ++ [DictItem "script"] ++
       calls (logevt_image_exec_image P cfg script) ++ after) /\
  In (DictItem "signature") (calls (logevt_image_exec_image P cfg script)).
Proof.
  intros Hscript Hcs. split.
  - unfold logevt_image_exec. rewrite Hscript. cbn [when_some].
    rewrite !seq_assoc.
    set (subject := logevt_process _ _ _ _ _).
    rewrite !calls_seq_pure by pure_tac.
    repeat first [ now (exists []; eexists) | apply within_app ].
  - unfold logevt_image_exec_image. rewrite Hcs. cbn [when_some].
    rewrite !seq_assoc. rewrite !calls_seq_pure by pure_tac.
    emitted_tac.
Qed.

(** C8, the object-image side, on the image [sh_signed_script] of the
    samples, an interpreter whose script carries a signature.
    [logevt_image_exec] returns 0 and the record holds the signature fields
    of the script after those of the interpreter, where the process-context
    rendering of the same image stops at its assertion. *)
Theorem C8_signed_script_serialized :
  let ie := Sample.sh_signed_script in
  outcome (logevt_image_exec Sample.platform Sample.config ie) = Some 0 /\
  pick signature_keys
    (calls (logevt_image_exec Sample.platform Sample.config ie)) =
    ["signature"; "origin"; "cdhash"; "ident"; "certcn";
     "signature"; "ident"; "teamid"; "ident"] /\
  outcome (logevt_process_image_exec Sample.platform Sample.config ie) = None.
Proof. vm_compute. repeat split. Qed.

(** ** C9: failing writes *)

(** On an engine whose every write fails, [logevt_socket_connect] still
    returns 0. *)
Lemma C9_failure_not_propagated :
  ~ failure_propagated Sample.closed_file tt
      (logevt_socket_connect Sample.platform Sample.config Sample.connect).
Proof.
  intros H. apply H.
  - vm_compute. left. reflexivity.
  - vm_compute. reflexivity.
Qed.

Lemma outcome_seq_zero (m : M unit) (k : M Z) :
  outcome k = Some 0 \/ outcome k = None ->
  outcome (m ;; k) = Some 0 \/ outcome (m ;; k) = None.
Proof.
  rewrite outcome_seq. destruct (returned m); [trivial | now right].
Qed.

Lemma drive_length {S} (fmt : engine S) (t : trace) :
  forall s, List.length (snd (drive fmt t s)) = List.length t.
Proof.
  induction t as [|c t IH]; intros s; [reflexivity |].
  simpl. destruct (fmt c s) as [s1 ok].
  specialize (IH s1). destruct (drive fmt t s1) as [s2 oks].
  simpl in *. now rewrite IH.
Qed.

(** C9, as the code has it.  On any engine and from any engine state, an
    event serializer either returns 0 or stops at an assertion: the results
    of the writes are not read, and a failed write changes neither the value
    returned nor the calls issued, each of which is made exactly once. *)
Theorem C9_serializers_return_zero {S} (fmt : engine S) (s : S) P cfg ev :
  let r := run_on fmt s (logevt P cfg ev) in
  (snd r = Some 0 \/ snd r = None) /\
  List.length (snd (fst r)) = List.length (calls (logevt P cfg ev)).
Proof.
  split.
  - unfold run_on. cbn [snd].
    destruct ev; cbn [logevt];
      [ unfold logevt_xnumon_ops | unfold logevt_xnumon_stats
      | unfold logevt_image_exec | unfold logevt_process_access
      | unfold logevt_launchd_add | unfold logevt_socket_listen
      | unfold logevt_socket_accept | unfold logevt_socket_connect ];
      repeat apply outcome_seq_zero; left; reflexivity.
  - unfold run_on. cbn [fst snd]. apply drive_length.
Qed.

(** ** C10: images reconstructed from a pid *)

Lemma process_reconstructed P cfg process processpid ie :
  pidlookup P ie = true ->
  exists rest,
    calls (logevt_process P cfg process processpid (Some ie)) =
      DictBegin :: DictItem "reconstructed" :: ValueBool true :: rest.
Proof.
  unfold pidlookup. intros Hflag. unfold logevt_process.
  rewrite Hflag. cbn [when]. rewrite !seq_assoc.
  rewrite !calls_seq_pure by reflexivity.
  eexists. reflexivity.
Qed.

Lemma process_observed P cfg process processpid ie :
  match ie with Some ie => pidlookup P ie = false | None => True end ->
  ~ In (DictItem "reconstructed")
       (calls (logevt_process P cfg process processpid ie)).
Proof.
  intros Hflag.
  apply (avoided_key_not_in "reconstructed" (ks := ["reconstructed"]));
    [reflexivity |].
  unfold logevt_process.
  apply all_seq; [reflexivity |].
  apply all_seq.
  - destruct ie as [ie|]; [| reflexivity].
    unfold pidlookup in Hflag. rewrite Hflag. reflexivity.
  - all_tac.
Qed.

Lemma image_exec_reconstructed P cfg ie :
  pidlookup P ie = true ->
  exists rest,
    calls (logevt_image_exec P cfg ie) =
      calls (logevt_header P (ie_hdr ie)) ++
      DictItem "reconstructed" :: ValueBool true :: rest.
Proof.
  unfold pidlookup. intros Hflag. unfold logevt_image_exec.
  rewrite Hflag. cbn [when]. rewrite !seq_assoc.
  rewrite !calls_seq_pure by reflexivity.
  eexists. reflexivity.
Qed.

Lemma avoids_not_in k (t : trace) :
  forallb (avoids [k]) t = true -> ~ In (DictItem k) t.
Proof.
  intros Hall Hin. rewrite forallb_forall in Hall. specialize (Hall _ Hin).
  simpl in Hall. now rewrite String.eqb_refl in Hall.
Qed.

Lemma image_exec_observed P cfg ie :
  pidlookup P ie = false ->
  exists before after,
    calls (logevt_image_exec P cfg ie) =
      before ++
      calls (logevt_process P cfg (Some (ie_subject ie)) 0 (ie_prev ie)) ++
      after /\
    ~ In (DictItem "reconstructed") before /\
    ~ In (DictItem "reconstructed") after.
Proof.
  unfold pidlookup. intros Hflag. unfold logevt_image_exec.
  rewrite Hflag. cbn [when]. rewrite ?seq_assoc.
  set (subject := logevt_process _ _ _ _ _).
  rewrite !calls_seq_pure by pure_tac.
  rewrite (calls_seq subject).
  rewrite !app_assoc. rewrite <- (app_assoc _ (calls subject)).
  eexists. eexists. split; [reflexivity |]. split.
  - apply avoids_not_in. rewrite !forallb_app, !andb_true_iff.
    repeat match goal with |- _ /\ _ => split end; avoids_tac.
  - apply avoids_not_in. now destruct (returned subject).
Qed.

(** C10.  A process rendering whose attached image exec has the pid-lookup
    flag set opens its dictionary with the key [reconstructed] and the value
    true; with the flag clear, or with no image exec attached, it emits no
    [reconstructed] key at all.  [logevt_image_exec] on an image exec with
    the flag set emits the key with the value true right after the header, at
    the top level of the record; with the flag clear, no [reconstructed] key
    is emitted outside the rendering of the subject process, which takes
    its own from the predecessor image exec. *)
Theorem C10_reconstructed_field P cfg :
  (forall process processpid ie,
     pidlookup P ie = true ->
     exists rest,
       calls (logevt_process P cfg process processpid (Some ie)) =
         DictBegin :: DictItem "reconstructed" :: ValueBool true :: rest) /\
  (forall process processpid ie,
     match ie with Some ie => pidlookup P ie = false | None => True end ->
     ~ In (DictItem "reconstructed")
          (calls (logevt_process P cfg process processpid ie))) /\
  (forall ie,
     pidlookup P ie = true ->
     (exists rest,
        calls (logevt_image_exec P cfg ie) =
          calls (logevt_header P (ie_hdr ie)) ++
          DictItem "reconstructed" :: ValueBool true :: rest) /\
     firstn 4 (own_keys (calls (logevt_image_exec P cfg ie))) =
       ["version"; "time"; "eventcode"; "reconstructed"]) /\
  (forall ie,
     pidlookup P ie = false ->
     exists before after,
       calls (logevt_image_exec P cfg ie) =
         before ++
         calls (logevt_process P cfg (Some (ie_subject ie)) 0 (ie_prev ie)) ++
         after /\
       ~ In (DictItem "reconstructed") before /\
       ~ In (DictItem "reconstructed") after).
Proof.
  split; [| split; [| split]].
  - intros. now apply process_reconstructed.
  - intros. now apply process_observed.
  - intros ie Hflag.
    destruct (image_exec_reconstructed P cfg ie Hflag) as (rest & Hrest).
    split; [now exists rest |].
    rewrite Hrest. reflexivity.
  - intros. now apply image_exec_observed.
Qed.

(** An image exec reconstructed from the pid 4242. *)
Lemma C10_reconstructed_field_witness :
  let ie := Build_image_exec (Sample.header 2) 256 4242 "/bin/ls"
              Sample.stat Sample.hashes None None None None None
              Sample.no_time (Sample.proc 4242) None in
  firstn 4 (own_keys (calls (logevt_image_exec Sample.platform
                               Sample.config ie))) =
    ["version"; "time"; "eventcode"; "reconstructed"] /\
  exists rest,
    calls (logevt_process Sample.platform Sample.config None 0 (Some ie)) =
      DictBegin :: DictItem "reconstructed" :: ValueBool true :: rest.
Proof.
  intros ie.
  pose proof (C10_reconstructed_field Sample.platform Sample.config)
    as (Hprocess & _ & Himage & _).
  split.
  - apply Himage. reflexivity.
  - apply Hprocess. reflexivity.
Defined.

(** ** When the serializers return *)

Lemma chain_unfold ie : chain ie = ie :: chain_from (ie_prev ie).
Proof. destruct ie as [? ? ? ? ? ? ? ? ? ? ? ? ? [q|]]; reflexivity. Qed.

Lemma returned_ancestors_loop P cfg ie :
  scripts_unsigned (Some ie) ->
  forall depth, returned (ancestors_loop P cfg depth ie) = true.
Proof.
  induction ie as [ie IH] using image_exec_prev_ind.
  unfold scripts_unsigned. cbn [chain_from]. rewrite chain_unfold.
  intros Hchain depth. inversion Hchain as [| a l Hie Hprev]; subst.
  destruct ie as [? ? ? ? ? ? ? ? ? ? ? ? ? prev].
  cbn [ancestors_loop ie_pid ie_prev] in *.
  destruct (0 <? ie_pid0); [| reflexivity].
  destruct (depth =? ancestors cfg); [reflexivity |].
  apply returned_seq_intro; [reflexivity |].
  apply returned_seq_intro.
  - now rewrite returned_process_image_exec.
  - destruct prev as [q|]; [| reflexivity].
    apply (IH q eq_refl). exact Hprev.
Qed.

Lemma returned_process P cfg process processpid ie :
  scripts_unsigned ie ->
  returned (logevt_process P cfg process processpid ie) = true.
Proof.
  intros Hchain. unfold logevt_process.
  destruct ie as [ie|]; cbn [when_some]; [| pure_tac].
  unfold scripts_unsigned in Hchain. cbn [chain_from] in Hchain.
  rewrite chain_unfold in Hchain.
  inversion Hchain as [| a l Hie Hprev]; subst.
  repeat (apply returned_seq_intro; [pure_tac |]).
  apply returned_seq_intro; [| reflexivity].
  repeat (apply returned_seq_intro; [pure_tac |]).
  apply returned_seq_intro; [now rewrite returned_process_image_exec |].
  apply returned_when. apply returned_seq_intro; [reflexivity |].
  unfold logevt_process_image_exec_ancestors.
  apply returned_seq_intro; [reflexivity |].
  apply returned_seq_intro; [| reflexivity].
  destruct (ie_prev ie) as [q|]; [| reflexivity].
  cbn [when_some]. now apply returned_ancestors_loop.
Qed.

(** Every serializer returns on an event that meets the invariant; the
    startup and statistics serializers return on every event. *)
Lemma logevt_returns P cfg ev :
  event_scripts_unsigned ev -> returned (logevt P cfg ev) = true.
Proof.
  destruct ev; cbn [logevt event_scripts_unsigned]; intros Hev.
  - unfold logevt_xnumon_ops. pure_tac.
  - unfold logevt_xnumon_stats. pure_tac.
  - unfold logevt_image_exec.
    repeat (apply returned_seq_intro; [pure_tac |]).
    apply returned_seq_intro; [now apply returned_process | reflexivity].
  - destruct Hev as [Hobject Hsubject]. unfold logevt_process_access.
    repeat (apply returned_seq_intro; [pure_tac |]).
    apply returned_seq_intro; [now apply returned_process |].
    apply returned_seq_intro; [reflexivity |].
    apply returned_seq_intro; [now apply returned_process | reflexivity].
  - unfold logevt_launchd_add.
    repeat (apply returned_seq_intro; [pure_tac |]).
    apply returned_seq_intro; [| reflexivity].
    apply returned_when. apply returned_seq_intro; [reflexivity |].
    now apply returned_process.
  - unfold logevt_socket_listen.
    repeat (apply returned_seq_intro; [pure_tac |]).
    apply returned_seq_intro; [now apply returned_process | reflexivity].
  - unfold logevt_socket_accept.
    repeat (apply returned_seq_intro; [pure_tac |]).
    apply returned_seq_intro; [now apply returned_process | reflexivity].
  - unfold logevt_socket_connect.
    repeat (apply returned_seq_intro; [pure_tac |]).
    apply returned_seq_intro; [now apply returned_process | reflexivity].
Qed.

(** ** The calls obey the protocol of the engine *)

Lemma accept_app st (a b : trace) :
  accept st (a ++ b) =
  match accept st a with Some st' => accept st' b | None => None end.
Proof.
  revert st. induction a as [|c a IH]; intros st; [reflexivity |].
  simpl. destruct (step st c); [apply IH | reflexivity].
Qed.

Lemma exec_seq {B} (m : M unit) (k : M B) st st1 st2 :
  exec m st st1 -> exec k st1 st2 -> exec (m ;; k) st st2.
Proof.
  intros [Hm Hm'] [Hk Hk']. unfold exec.
  rewrite calls_seq, returned_seq, accept_app.
  destruct (returned m); cbn [andb]; cbv iota.
  - rewrite (Hm eq_refl). split; [exact Hk | exact Hk'].
  - split; [discriminate |].
    destruct (accept st (calls m)); [discriminate | exact Hm'].
Qed.

Lemma exec_emit c st st' : step st c = Some st' -> exec (emit c) st st'.
Proof.
  intros H. unfold exec. cbn [calls emit fst accept]. rewrite H.
  split; [reflexivity | discriminate].
Qed.

Lemma exec_ret {A} (a : A) st : exec (ret a) st st.
Proof. split; [reflexivity | discriminate]. Qed.

Lemma exec_assert e st : exec (assert e) st st.
Proof. split; [reflexivity | discriminate]. Qed.

Lemma exec_when c (m : M unit) st : exec m st st -> exec (when c m) st st.
Proof. destruct c; [trivial | intros _; apply exec_ret]. Qed.

Lemma exec_when_some {A} (o : option A) (f : A -> M unit) st :
  (forall a, exec (f a) st st) -> exec (when_some o f) st st.
Proof. destruct o; [simpl; trivial | intros _; apply exec_ret]. Qed.

Lemma exec_for_each {A} (l : list A) (body : A -> M unit) st :
  (forall a, exec (body a) st st) -> exec (for_each l body) st st.
Proof.
  intros H. induction l as [|a l IH]; [apply exec_ret |].
  simpl. eapply exec_seq; [apply H | exact IH].
Qed.

Ltac exec_tac :=
  lazymatch goal with
  | |- exec (_ ;; _) _ _ => eapply exec_seq; [exec_tac | exec_tac]
  | |- exec (when _ _) _ _ => apply exec_when; exec_tac
  | |- exec (when_some _ _) _ _ => apply exec_when_some; intros; exec_tac
  | |- exec (for_each _ _) _ _ => apply exec_for_each; intros; exec_tac
  | |- exec (if ?c then _ else _) _ _ => destruct c; exec_tac
  | |- exec (match ?o with Some _ => _ | None => _ end) _ _ =>
      destruct o; exec_tac
  | |- exec (assert _) _ _ => apply exec_assert
  | |- exec (ret _) _ _ => apply exec_ret
  | |- exec skip _ _ => apply exec_ret
  | |- exec (logevt_uid _ _ _ _ _) _ _ => unfold logevt_uid; exec_tac
  | |- exec (logevt_gid _ _ _ _ _) _ _ => unfold logevt_gid; exec_tac
  | |- exec (logevt_header _ _) _ _ => unfold logevt_header; exec_tac
  | |- exec logevt_footer _ _ => unfold logevt_footer; exec_tac
  | |- exec (logevt_image_exec_image _ _ _) _ _ =>
      unfold logevt_image_exec_image; exec_tac
  | |- exec (logevt_process_image_exec _ _ _) _ _ =>
      unfold logevt_process_image_exec; exec_tac
  | |- exec _ _ _ => apply exec_emit; reflexivity
  end.

Lemma exec_uid P cfg uid il nl open :
  exec (logevt_uid P cfg uid il nl) (InDict :: open, false)
       (InDict :: open, false).
Proof. exec_tac. Qed.

Lemma exec_image_exec_image P cfg ie open :
  exec (logevt_image_exec_image P cfg ie) (open, true) (open, false).
Proof. exec_tac. Qed.

Lemma exec_process_image_exec P cfg ie open :
  exec (logevt_process_image_exec P cfg ie) (open, true) (open, false).
Proof. exec_tac. Qed.

Lemma exec_ancestors_loop P cfg ie :
  forall depth open,
    exec (ancestors_loop P cfg depth ie) (InList :: open, false)
         (InList :: open, false).
Proof.
  induction ie as [ie IH] using image_exec_prev_ind.
  intros depth open. destruct ie as [? ? ? ? ? ? ? ? ? ? ? ? ? prev].
  cbn [ancestors_loop ie_pid ie_prev] in *.
  destruct (0 <? ie_pid0); [| apply exec_ret].
  destruct (depth =? ancestors cfg); [apply exec_ret |].
  eapply exec_seq; [apply exec_emit; reflexivity |].
  eapply exec_seq; [apply exec_process_image_exec |].
  destruct prev as [q|]; [apply (IH q eq_refl) | apply exec_ret].
Qed.

Lemma exec_ancestors P cfg ie open :
  exec (logevt_process_image_exec_ancestors P cfg ie) (open, true)
       (open, false).
Proof.
  unfold logevt_process_image_exec_ancestors.
  eapply exec_seq; [apply exec_emit; reflexivity |].
  eapply exec_seq;
    [ apply exec_when_some; intros a; apply exec_ancestors_loop
    | apply exec_emit; reflexivity ].
Qed.

Lemma exec_process P cfg process processpid ie open :
  exec (logevt_process P cfg process processpid ie) (open, true)
       (open, false).
Proof.
  unfold logevt_process.
  eapply exec_seq; [apply exec_emit; reflexivity |].
  eapply exec_seq; [exec_tac |].
  eapply exec_seq; [exec_tac |].
  apply exec_seq with (st1 := (InDict :: open, false));
    [| apply exec_emit; reflexivity].
  apply exec_when_some. intros a.
  eapply exec_seq; [exec_tac |].
  eapply exec_seq; [exec_tac |].
  eapply exec_seq; [apply exec_process_image_exec |].
  apply exec_when.
  eapply exec_seq; [apply exec_emit; reflexivity | apply exec_ancestors].
Qed.

Lemma exec_logevt P cfg ev : exec (logevt P cfg ev) idle idle.
Proof.
  destruct ev; cbn [logevt].
  - unfold logevt_xnumon_ops. exec_tac.
  - unfold logevt_xnumon_stats. exec_tac.
  - unfold logevt_image_exec.
    repeat (eapply exec_seq;
            [first [apply exec_process | apply exec_image_exec_image
                   | exec_tac] |]).
    apply exec_ret.
  - unfold logevt_process_access.
    repeat (eapply exec_seq; [first [apply exec_process | exec_tac] |]).
    apply exec_ret.
  - unfold logevt_launchd_add.
    repeat (eapply exec_seq;
            [first [ apply exec_when; eapply exec_seq;
                     [apply exec_emit; reflexivity | apply exec_process]
                   | exec_tac] |]).
    apply exec_ret.
  - unfold logevt_socket_listen.
    repeat (eapply exec_seq; [first [apply exec_process | exec_tac] |]).
    apply exec_ret.
  - unfold logevt_socket_accept.
    repeat (eapply exec_seq; [first [apply exec_process | exec_tac] |]).
    apply exec_ret.
  - unfold logevt_socket_connect.
    repeat (eapply exec_seq; [first [apply exec_process | exec_tac] |]).
    apply exec_ret.
Qed.

(** Every event serializer talks to the engine within its protocol: blocks
    are opened and closed in matching pairs, keys go to dictionaries and
    labels to lists, and each is followed by exactly one value.  This holds
    of the calls issued up to a failed assertion, and a serializer that
    returns leaves the engine idle, its record complete. *)
Theorem protocol_obeyed P cfg ev :
  accept idle (calls (logevt P cfg ev)) <> None /\
  (returned (logevt P cfg ev) = true ->
   accept idle (calls (logevt P cfg ev)) = Some idle).
Proof.
  destruct (exec_logevt P cfg ev) as [Hret Hprefix]. now split.
Qed.

Lemma protocol_obeyed_witness :
  accept idle
    (calls (logevt Sample.platform Sample.config (EvSocketConnect Sample.connect)))
  = Some idle.
Proof.
  apply (protocol_obeyed Sample.platform Sample.config
           (EvSocketConnect Sample.connect)).
  vm_compute. reflexivity.
Defined.

(** ** No dictionary gets a key twice *)

Lemma keyed_accept_app st (a b : trace) :
  keyed_accept st (a ++ b) =
  match keyed_accept st a with
  | Some st' => keyed_accept st' b
  | None => None
  end.
Proof.
  revert st. induction a as [|c a IH]; intros st; [reflexivity |].
  simpl. destruct (keyed_step st c); [apply IH | reflexivity].
Qed.

Lemma within_refl open : within open open.
Proof.
  induction open as [|[| keys |] open IH]; simpl; auto using incl_refl.
Qed.

Lemma within_trans a b c : within a b -> within b c -> within a c.
Proof.
  revert b c. induction a as [|[| ka |] a IH]; intros [|[| kb |] b] [|[| kc |] c];
    simpl; try tauto; try (now apply IH).
  intros [H1 H2] [H3 H4]. split; [eapply incl_tran; eauto | eapply IH; eauto].
Qed.

Lemma state_within_refl st : state_within st st.
Proof. split; [apply within_refl | reflexivity]. Qed.

Lemma state_within_trans a b c :
  state_within a b -> state_within b c -> state_within a c.
Proof.
  intros [H1 H2] [H3 H4]. split; [eapply within_trans; eauto | congruence].
Qed.

(** More keys in the innermost dictionary. *)
Lemma state_within_keys keys keys' open due :
  forallb (fun k => mem k keys') keys = true ->
  state_within (KDict keys :: open, due) (KDict keys' :: open, due).
Proof.
  intros H. split; [| reflexivity]. simpl. split; [| apply within_refl].
  intros k Hk. rewrite forallb_forall in H. specialize (H k Hk).
  unfold mem in H. apply existsb_exists in H as (k' & Hin & Heq).
  apply String.eqb_eq in Heq. now subst.
Qed.

Lemma mem_false_not_in k keys : mem k keys = false -> ~ In k keys.
Proof.
  intros H Hin. unfold mem in H.
  assert (existsb (String.eqb k) keys = true) as H'.
  { apply existsb_exists. exists k. split; [exact Hin | apply String.eqb_refl]. }
  congruence.
Qed.

Lemma within_nil open : within open [] -> open = [].
Proof. destruct open as [|[| k |] open]; simpl; tauto. Qed.

Lemma in_of_mem k keys : mem k keys = true -> In k keys.
Proof.
  unfold mem. intros H. apply existsb_exists in H as (k' & Hin & Heq).
  apply String.eqb_eq in Heq. now subst.
Qed.

(** One call: what the stricter engine answers on the bound holds on every
    state within it. *)
Lemma keyed_step_within st pre post c :
  state_within st pre ->
  keyed_step pre c = Some post ->
  exists st', keyed_step st c = Some st' /\ state_within st' post.
Proof.
  destruct st as [open due], pre as [bound due'].
  intros [Hopen Hdue] Hstep. cbn [fst snd] in Hopen, Hdue. subst due'.
  assert (Hvalue : forall c', 
            (if due then Some (bound, false) else None) = Some post ->
            keyed_step (open, due) c' = (if due then Some (open, false) else None) ->
            exists st', keyed_step (open, due) c' = Some st' /\
                        state_within st' post).
  { intros c' H Hc'. rewrite Hc'. destruct due; [| discriminate].
    injection H as <-. eexists. split; [reflexivity |]. now split. }
  destruct c; cbn [keyed_step] in Hstep;
    try (apply Hvalue; [exact Hstep | reflexivity]); clear Hvalue.
  - destruct bound; [| discriminate]. destruct due; [discriminate |].
    injection Hstep as <-. apply within_nil in Hopen. subst open.
    eexists. split; [reflexivity |]. now split.
  - destruct bound as [|[| kb |] [|? ?]]; try discriminate.
    destruct due; [discriminate |]. injection Hstep as <-.
    destruct open as [|[| ko |] open]; simpl in Hopen; try tauto.
    apply within_nil in Hopen. subst open.
    eexists. split; [reflexivity |]. now split.
  - destruct due; [| discriminate]. injection Hstep as <-.
    eexists. split; [reflexivity |].
    split; [| reflexivity]. simpl. split; [apply incl_refl | exact Hopen].
  - destruct bound as [|[| kb |] bound]; try discriminate.
    destruct due; [discriminate |]. injection Hstep as <-.
    destruct open as [|[| ko |] open]; simpl in Hopen; try tauto.
    eexists. split; [reflexivity |]. split; [tauto | reflexivity].
  - destruct bound as [|[| kb |] bound]; try discriminate.
    destruct due; [discriminate |].
    destruct (mem label kb) eqn:Hmem; [discriminate |].
    injection Hstep as <-.
    destruct open as [|[| ko |] open]; simpl in Hopen; try tauto.
    destruct Hopen as [Hincl Hopen].
    assert (Hko : mem label ko = false).
    { destruct (mem label ko) eqn:Hko; [| reflexivity].
      exfalso. apply (mem_false_not_in _ _ Hmem). apply Hincl.
      now apply in_of_mem. }
    cbn [keyed_step]. rewrite Hko. eexists. split; [reflexivity |].
    split; [| reflexivity]. simpl. split; [| exact Hopen].
    intros k [<- | Hk]; [now left | right; now apply Hincl].
  - destruct due; [| discriminate]. injection Hstep as <-.
    eexists. split; [reflexivity |].
    split; [| reflexivity]. simpl. exact Hopen.
  - destruct bound as [|[| kb |] bound]; try discriminate.
    destruct due; [discriminate |]. injection Hstep as <-.
    destruct open as [|[| ko |] open]; simpl in Hopen; try tauto.
    eexists. split; [reflexivity |]. split; [tauto | reflexivity].
  - destruct bound as [|[| kb |] bound]; try discriminate.
    destruct due; [discriminate |]. injection Hstep as <-.
    destruct open as [|[| ko |] open]; simpl in Hopen; try tauto.
    eexists. split; [reflexivity |]. split; [simpl; tauto | reflexivity].
Qed.

Lemma keyed_exec_seq {B} (m : M unit) (k : M B) pre mid post :
  keyed_exec m pre mid -> keyed_exec k mid post ->
  keyed_exec (m ;; k) pre post.
Proof.
  intros Hm Hk st Hst. destruct (Hm st Hst) as [Hm1 Hm2].
  rewrite calls_seq, returned_seq, keyed_accept_app.
  destruct (returned m); cbn [andb]; cbv iota.
  - destruct (Hm1 eq_refl) as (st1 & -> & Hst1).
    exact (Hk st1 Hst1).
  - split; [discriminate |].
    destruct (keyed_accept st (calls m)); [discriminate | exact Hm2].
Qed.

Lemma keyed_exec_emit c pre post :
  keyed_step pre c = Some post -> keyed_exec (emit c) pre post.
Proof.
  intros Hstep st Hst.
  destruct (keyed_step_within c Hst Hstep) as (st' & Hst' & Hwithin).
  cbn [calls emit fst keyed_accept]. rewrite Hst'.
  split; [intros _; now exists st' | discriminate].
Qed.

Lemma keyed_exec_ret {A} (a : A) pre : keyed_exec (ret a) pre pre.
Proof.
  intros st Hst. split; [intros _; now exists st | discriminate].
Qed.

Lemma keyed_exec_assert e pre : keyed_exec (assert e) pre pre.
Proof.
  intros st Hst. split; [intros _; now exists st | discriminate].
Qed.

Lemma keyed_exec_weaken {A} (m : M A) pre post post' :
  keyed_exec m pre post -> state_within post post' ->
  keyed_exec m pre post'.
Proof.
  intros Hm Hpost st Hst. destruct (Hm st Hst) as [H1 H2].
  split; [| exact H2]. intros Hret.
  destruct (H1 Hret) as (st' & Hacc & Hst'). exists st'.
  split; [exact Hacc | eapply state_within_trans; eauto].
Qed.

Lemma keyed_exec_when c (m : M unit) pre post :
  keyed_exec m pre post -> state_within pre post ->
  keyed_exec (when c m) pre post.
Proof.
  intros Hm Hpre. destruct c; [exact Hm |].
  eapply keyed_exec_weaken; [apply keyed_exec_ret | exact Hpre].
Qed.

Lemma keyed_exec_when_some {A} (o : option A) (f : A -> M unit) pre post :
  (forall a, keyed_exec (f a) pre post) -> state_within pre post ->
  keyed_exec (when_some o f) pre post.
Proof.
  intros Hf Hpre. destruct o; [apply Hf |].
  eapply keyed_exec_weaken; [apply keyed_exec_ret | exact Hpre].
Qed.

Lemma keyed_exec_for_each {A} (l : list A) (body : A -> M unit) pre :
  (forall a, keyed_exec (body a) pre pre) ->
  keyed_exec (for_each l body) pre pre.
Proof.
  intros H. induction l as [|a l IH]; [apply keyed_exec_ret |].
  simpl. eapply keyed_exec_seq; [apply H | exact IH].
Qed.

(** The two branches of a conditional may leave different keys. *)
Lemma keyed_exec_if {A} (c : bool) (a b : M A) pre keys keys' open due :
  keyed_exec a pre (KDict keys :: open, due) ->
  keyed_exec b pre (KDict keys' :: open, due) ->
  keyed_exec (if c then a else b) pre (KDict (keys ++ keys') :: open, due).
Proof.
  intros Ha Hb. destruct c.
  - eapply keyed_exec_weaken; [exact Ha |].
    split; [| reflexivity]. simpl.
    split; [apply incl_appl, incl_refl | apply within_refl].
  - eapply keyed_exec_weaken; [exact Hb |].
    split; [| reflexivity]. simpl.
    split; [apply incl_appr, incl_refl | apply within_refl].
Qed.

Ltac within_tac :=
  first [ apply state_within_refl
        | apply state_within_keys; reflexivity ].

(** The renderings proved on their own are added to [keyed_call]. *)
Ltac keyed_call := fail.

Ltac keyed_tac :=
  first [ keyed_call | keyed_stmt ]
with keyed_stmt :=
  lazymatch goal with
  | |- keyed_exec (_ ;; _) _ _ =>
      eapply keyed_exec_seq; [keyed_tac | keyed_tac]
  | |- keyed_exec (when _ _) _ _ =>
      eapply keyed_exec_when; [keyed_tac | within_tac]
  | |- keyed_exec (when_some _ _) _ _ =>
      eapply keyed_exec_when_some; [intros; keyed_tac | within_tac]
  | |- keyed_exec (for_each _ _) _ _ =>
      apply keyed_exec_for_each; intros; keyed_tac
  | |- keyed_exec (if ?c then _ else _) _ _ =>
      first [ solve [destruct c; keyed_tac]
            | eapply keyed_exec_if; [keyed_tac | keyed_tac] ]
  | |- keyed_exec (match ?o with Some _ => _ | None => _ end) _ _ =>
      destruct o; keyed_tac
  | |- keyed_exec (assert _) _ _ => apply keyed_exec_assert
  | |- keyed_exec (ret _) _ _ => apply keyed_exec_ret
  | |- keyed_exec skip _ _ => apply keyed_exec_ret
  | |- keyed_exec (logevt_uid _ _ _ _ _) _ _ => unfold logevt_uid; keyed_tac
  | |- keyed_exec (logevt_gid _ _ _ _ _) _ _ => unfold logevt_gid; keyed_tac
  | |- keyed_exec (logevt_header _ _) _ _ => unfold logevt_header; keyed_tac
  | |- keyed_exec logevt_footer _ _ => unfold logevt_footer; keyed_tac
  | |- keyed_exec (logevt_image_exec_image _ _ _) _ _ =>
      unfold logevt_image_exec_image; keyed_tac
  | |- keyed_exec (logevt_process_image_exec _ _ _) _ _ =>
      unfold logevt_process_image_exec; keyed_tac
  | |- keyed_exec _ _ _ => apply keyed_exec_emit; reflexivity
  end.

Lemma keyed_exec_image_exec_image P cfg ie open :
  keyed_exec (logevt_image_exec_image P cfg ie) (open, true) (open, false).
Proof. keyed_tac. Qed.

Lemma keyed_exec_process_image_exec P cfg ie open :
  keyed_exec (logevt_process_image_exec P cfg ie) (open, true) (open, false).
Proof. keyed_tac. Qed.

Lemma keyed_exec_ancestors_loop P cfg ie :
  forall depth open,
    keyed_exec (ancestors_loop P cfg depth ie) (KList :: open, false)
               (KList :: open, false).
Proof.
  induction ie as [ie IH] using image_exec_prev_ind.
  intros depth open. destruct ie as [? ? ? ? ? ? ? ? ? ? ? ? ? prev].
  cbn [ancestors_loop ie_pid ie_prev] in *.
  destruct (0 <? ie_pid0); [| apply keyed_exec_ret].
  destruct (depth =? ancestors cfg); [apply keyed_exec_ret |].
  eapply keyed_exec_seq; [apply keyed_exec_emit; reflexivity |].
  eapply keyed_exec_seq; [apply keyed_exec_process_image_exec |].
  destruct prev as [q|]; [apply (IH q eq_refl) | apply keyed_exec_ret].
Qed.

Lemma keyed_exec_ancestors P cfg ie open :
  keyed_exec (logevt_process_image_exec_ancestors P cfg ie) (open, true)
             (open, false).
Proof.
  unfold logevt_process_image_exec_ancestors.
  eapply keyed_exec_seq; [apply keyed_exec_emit; reflexivity |].
  eapply keyed_exec_seq;
    [ apply keyed_exec_when_some;
      [intros a; apply keyed_exec_ancestors_loop | apply state_within_refl]
    | apply keyed_exec_emit; reflexivity ].
Qed.

Lemma keyed_exec_process P cfg process processpid ie open :
  keyed_exec (logevt_process P cfg process processpid ie) (open, true)
             (open, false).
Proof.
  unfold logevt_process.
  eapply keyed_exec_seq; [keyed_tac |].
  eapply keyed_exec_seq; [keyed_tac |].
  eapply keyed_exec_seq; [keyed_tac |].
  eapply keyed_exec_seq.
  { eapply keyed_exec_when_some;
      [ intros a;
        eapply keyed_exec_seq; [keyed_tac |];
        eapply keyed_exec_seq; [keyed_tac |];
        eapply keyed_exec_seq; [apply keyed_exec_process_image_exec |];
        eapply keyed_exec_when;
          [ eapply keyed_exec_seq; [keyed_tac | apply keyed_exec_ancestors]
          | within_tac ]
      | within_tac ]. }
  apply keyed_exec_emit; reflexivity.
Qed.

Ltac keyed_call ::=
  lazymatch goal with
  | |- keyed_exec (logevt_process _ _ _ _ _) _ _ => apply keyed_exec_process
  | |- keyed_exec (logevt_image_exec_image _ _ _) _ _ =>
      apply keyed_exec_image_exec_image
  end.

Lemma keyed_exec_logevt P cfg ev :
  keyed_exec (logevt P cfg ev) keyed_idle keyed_idle.
Proof.
  destruct ev; cbn [logevt];
    [ unfold logevt_xnumon_ops | unfold logevt_xnumon_stats
    | unfold logevt_image_exec | unfold logevt_process_access
    | unfold logevt_launchd_add | unfold logevt_socket_listen
    | unfold logevt_socket_accept | unfold logevt_socket_connect ];
    keyed_tac.
Qed.

(** Every event serializer talks to the engine within its protocol, and
    gives no dictionary the same key twice: its calls are accepted by the
    stricter engine, also when an assertion stops the serializer halfway,
    and a serializer that returns leaves the engine idle, every block
    closed. *)
Theorem keys_never_repeat P cfg ev :
  keyed_accept keyed_idle (calls (logevt P cfg ev)) <> None /\
  (returned (logevt P cfg ev) = true ->
   keyed_accept keyed_idle (calls (logevt P cfg ev)) = Some keyed_idle).
Proof.
  destruct (keyed_exec_logevt P cfg ev (state_within_refl keyed_idle))
    as [Hret Hprefix].
  split; [exact Hprefix |]. intros H.
  destruct (Hret H) as ([open due] & Hacc & Hopen & Hdue).
  cbn [fst snd keyed_idle] in Hopen, Hdue.
  apply within_nil in Hopen. now subst.
Qed.

Lemma keys_never_repeat_witness :
  keyed_accept keyed_idle
    (calls (logevt Sample.platform Sample.config (EvImageExec Sample.python)))
  = Some keyed_idle.
Proof.
  apply (keys_never_repeat Sample.platform Sample.config
           (EvImageExec Sample.python)).
  vm_compute. reflexivity.
Defined.

(** ** Exactly when a serializer returns *)

Lemma returned_for_each_forallb {A} (l : list A) (body : A -> M unit) :
  returned (for_each l body) = forallb (fun a => returned (body a)) l.
Proof.
  induction l as [|a l IH]; [reflexivity |].
  simpl. now rewrite returned_seq, IH.
Qed.

Lemma forallb_pointwise {A} (f g : A -> bool) (l : list A) :
  (forall a, f a = g a) -> forallb f l = forallb g l.
Proof.
  intros H. induction l as [|a l IH]; [reflexivity |].
  simpl. now rewrite H, IH.
Qed.

Lemma returned_ancestors_exact P cfg ie :
  0 <= ancestors cfg <= SIZE_MAX ->
  returned (logevt_process_image_exec_ancestors P cfg ie) =
  forallb script_unsigned
    (firstn (Z.to_nat (ancestors cfg)) (live (chain_from ie))).
Proof.
  intros Hmax. rewrite (ancestors_for_each P cfg ie Hmax).
  rewrite returned_seq_pure by reflexivity.
  rewrite returned_seq, returned_for_each_forallb, andb_true_r.
  apply forallb_pointwise. intros a. unfold render_ancestor.
  rewrite returned_seq_pure by reflexivity.
  apply returned_process_image_exec.
Qed.

Lemma returned_process_exact P cfg process processpid ie :
  0 <= ancestors cfg <= SIZE_MAX ->
  returned (logevt_process P cfg process processpid ie) =
  forallb script_unsigned (rendered_in_context cfg ie).
Proof.
  intros Hmax. unfold logevt_process, rendered_in_context.
  rewrite !returned_seq_pure by pure_tac.
  rewrite returned_seq, andb_true_r.
  destruct ie as [ie|]; [| reflexivity].
  cbn [when_some forallb].
  rewrite !returned_seq_pure by pure_tac.
  rewrite returned_seq, returned_process_image_exec. f_equal.
  destruct (0 <? ancestors cfg); [| reflexivity].
  cbn [when]. rewrite returned_seq_pure by reflexivity.
  now apply returned_ancestors_exact.
Qed.

(** An event serializer returns exactly when no image it renders in the
    context of a process has a script that carries a signature; these are,
    for each process of the event, the attached image and the ancestors
    walked, at most [config->ancestors] of them.  A signed script further up
    the chain, or on the image of an image-exec event itself, does not stop
    it; the startup and statistics serializers always return. *)
Theorem serializer_returns_exactly P cfg ev :
  0 <= ancestors cfg <= SIZE_MAX ->
  returned (logevt P cfg ev) = assertions_hold P cfg ev.
Proof.
  intros Hmax. unfold assertions_hold.
  destruct ev; cbn [logevt event_images forallb].
  - unfold logevt_xnumon_ops. pure_tac.
  - unfold logevt_xnumon_stats. pure_tac.
  - unfold logevt_image_exec.
    rewrite !returned_seq_pure by pure_tac.
    rewrite returned_seq, (returned_process_exact P _ _ _ _ Hmax).
    reflexivity.
  - unfold logevt_process_access.
    rewrite !returned_seq_pure by pure_tac.
    rewrite returned_seq, (returned_process_exact P _ _ _ _ Hmax).
    rewrite !returned_seq_pure by pure_tac.
    rewrite returned_seq, (returned_process_exact P _ _ _ _ Hmax).
    reflexivity.
  - unfold logevt_launchd_add.
    rewrite !returned_seq_pure by pure_tac.
    rewrite returned_seq, andb_true_r.
    destruct (has_flag (la_flags ldadd) (LAFLAG_NOSUBJECT P));
      [reflexivity |].
    cbn [negb when forallb]. rewrite returned_seq_pure by reflexivity.
    rewrite (returned_process_exact P _ _ _ _ Hmax). now rewrite andb_true_r.
  - unfold logevt_socket_listen.
    rewrite !returned_seq_pure by pure_tac.
    rewrite returned_seq, (returned_process_exact P _ _ _ _ Hmax).
    reflexivity.
  - unfold logevt_socket_accept.
    rewrite !returned_seq_pure by pure_tac.
    rewrite returned_seq, (returned_process_exact P _ _ _ _ Hmax).
    reflexivity.
  - unfold logevt_socket_connect.
    rewrite !returned_seq_pure by pure_tac.
    rewrite returned_seq, (returned_process_exact P _ _ _ _ Hmax).
    reflexivity.
Qed.

(** Depth 1 on the samples: the ancestor two steps up has a signed script,
    and is not rendered. *)
Lemma serializer_returns_exactly_witness :
  returned
    (logevt Sample.platform Sample.config
       (EvImageExec
          (Sample.image 5002 "/bin/cat" None None
             (Some (Sample.image 5001 "/bin/zsh" None None
                (Some (Sample.image 5000 "/usr/bin/login" None None
                   (Some Sample.sh_signed_script))))))))
  = true.
Proof.
  rewrite (serializer_returns_exactly Sample.platform Sample.config).
  - reflexivity.
  - unfold SIZE_MAX. simpl. lia.
Defined.

(** ** Counting calls *)

Section Bounded.

Variable p : call -> bool.

Lemma bounded_seq {B} (m : M unit) (k : M B) a b :
  bounded p m a -> bounded p k b -> bounded p (m ;; k) (a + b).
Proof.
  unfold bounded. intros Hm Hk. rewrite calls_seq, count_app.
  destruct (returned m); [lia |].
  change (count p []) with 0%nat. lia.
Qed.

Lemma bounded_emit c : bounded p (emit c) (if p c then 1 else 0).
Proof.
  unfold bounded. cbn [calls emit fst]. rewrite count_cons.
  change (count p []) with 0%nat. lia.
Qed.

Lemma bounded_le {A} (m : M A) a b :
  bounded p m a -> (a <= b)%nat -> bounded p m b.
Proof. unfold bounded. lia. Qed.

Lemma bounded_emit_one c : bounded p (emit c) 1.
Proof. eapply bounded_le; [apply bounded_emit | destruct (p c); lia]. Qed.

Lemma bounded_emit_none c : p c = false -> bounded p (emit c) 0.
Proof. intros H. eapply bounded_le; [apply bounded_emit | rewrite H; lia]. Qed.

Lemma bounded_ret {A} (a : A) : bounded p (ret a) 0.
Proof. apply Nat.le_refl. Qed.

Lemma bounded_assert e : bounded p (assert e) 0.
Proof. apply Nat.le_refl. Qed.

Lemma bounded_when c (m : M unit) a : bounded p m a -> bounded p (when c m) a.
Proof. destruct c; [trivial | intros _; apply Nat.le_0_l]. Qed.

Lemma bounded_when_some {A} (o : option A) (f : A -> M unit) a :
  (forall x, bounded p (f x) a) -> bounded p (when_some o f) a.
Proof. destruct o; [simpl; trivial | intros _; apply Nat.le_0_l]. Qed.

Lemma bounded_if {A} (c : bool) (x y : M A) a b :
  bounded p x a -> bounded p y b ->
  bounded p (if c then x else y) (Nat.max a b).
Proof. unfold bounded. destruct c; lia. Qed.

Lemma bounded_for_each {A} (l : list A) (body : A -> M unit) n :
  (forall a, bounded p (body a) n) ->
  bounded p (for_each l body) (n * List.length l).
Proof.
  intros H. induction l as [|a l IH].
  - apply Nat.le_0_l.
  - cbn [for_each List.length]. eapply bounded_le.
    + apply bounded_seq; [apply H | exact IH].
    + lia.
Qed.

End Bounded.

(** The walk: [per] calls at most for each of at most [config->ancestors]
    entries, when an entry is worth at most [per]. *)
Lemma ancestors_bounded P cfg p ie per :
  0 <= ancestors cfg <= SIZE_MAX ->
  (forall a, bounded p (render_ancestor P cfg a) per) ->
  bounded p (logevt_process_image_exec_ancestors P cfg ie)
    ((if p ListBegin then 1 else 0) +
     (per * Z.to_nat (ancestors cfg) + (if p ListEnd then 1 else 0))).
Proof.
  intros Hmax Hper. rewrite (ancestors_for_each P cfg ie Hmax).
  apply bounded_seq; [apply (bounded_emit p ListBegin) |].
  apply bounded_seq; [| apply (bounded_emit p ListEnd)].
  eapply bounded_le; [apply bounded_for_each, Hper |].
  rewrite length_firstn. nia.
Qed.

Ltac bounded_tac :=
  lazymatch goal with
  | |- bounded _ (_ ;; _) _ => eapply bounded_seq; [bounded_tac | bounded_tac]
  | |- bounded _ (when _ _) _ => eapply bounded_when; bounded_tac
  | |- bounded _ (when_some _ _) _ =>
      eapply bounded_when_some; intros; bounded_tac
  | |- bounded _ (if _ then _ else _) _ =>
      eapply bounded_if; [bounded_tac | bounded_tac]
  | |- bounded _ (assert _) _ => apply bounded_assert
  | |- bounded _ (ret _) _ => apply bounded_ret
  | |- bounded _ skip _ => apply bounded_ret
  | |- bounded _ (logevt_uid _ _ _ _ _) _ => unfold logevt_uid; bounded_tac
  | |- bounded _ (logevt_gid _ _ _ _ _) _ => unfold logevt_gid; bounded_tac
  | |- bounded _ (logevt_process_image_exec _ _ _) _ =>
      unfold logevt_process_image_exec; bounded_tac
  | |- bounded _ (logevt_process_image_exec_ancestors _ _ _) _ =>
      eapply ancestors_bounded;
        [eassumption | intros; unfold render_ancestor; bounded_tac]
  | |- bounded _ (logevt_process _ _ _ _ _) _ =>
      unfold logevt_process; bounded_tac
  | |- bounded _ _ _ =>
      first [ apply bounded_emit_none; reflexivity | apply bounded_emit_one ]
  end.

(** The process-context rendering of one image: at most 29 calls. *)
Lemma process_image_exec_size P cfg ie :
  bounded any_call (logevt_process_image_exec P cfg ie) 29.
Proof. eapply bounded_le; [bounded_tac | vm_compute; lia]. Qed.

Lemma process_image_exec_no_ancestor_item P cfg ie :
  bounded is_ancestor_item (logevt_process_image_exec P cfg ie) 0.
Proof. eapply bounded_le; [bounded_tac | vm_compute; lia]. Qed.

Lemma count_any_call (t : trace) : count any_call t = List.length t.
Proof.
  unfold count. induction t as [|c t IH]; [reflexivity |].
  simpl. now rewrite IH.
Qed.

(** The size of a process rendering is bounded by the configured ancestor
    depth, not by the length of the chain of image execs: at most 67 calls,
    and 30 more for each ancestor the configuration allows, whether the
    rendering returns or stops at an assertion. *)
Theorem process_size_bounded P cfg process processpid ie :
  0 <= ancestors cfg <= SIZE_MAX ->
  (List.length (calls (logevt_process P cfg process processpid ie))
   <= 67 + 30 * Z.to_nat (ancestors cfg))%nat.
Proof.
  intros Hmax. rewrite <- count_any_call.
  change (bounded any_call (logevt_process P cfg process processpid ie)
            (67 + 30 * Z.to_nat (ancestors cfg))).
  eapply bounded_le; [bounded_tac |].
  cbn [any_call]. rewrite !Nat.max_r by lia. lia.
Qed.

(** ** The ancestor list at its limits *)

Lemma ends_with_all Q (a t l : trace) :
  forallb Q a = true ->
  (exists pre, t = pre ++ l /\ forallb Q pre = true) ->
  exists pre, a ++ t = pre ++ l /\ forallb Q pre = true.
Proof.
  intros Ha (pre & -> & Hpre). exists (a ++ pre). split.
  - apply app_assoc.
  - now rewrite forallb_app, Ha, Hpre.
Qed.

(** The ancestor list at its limits.  However long the chain, and whether
    the rendering returns or not, a process rendering holds at most
    [config->ancestors] ancestor entries.  With a depth of 0 it holds neither
    the key [ancestors] nor any list.  With a positive depth and an image
    attached, the key and its list are emitted even when there is no ancestor
    to show: the list is then empty, not left out. *)
Theorem ancestor_list_limits P cfg process processpid ie :
  0 <= ancestors cfg <= SIZE_MAX ->
  let t := calls (logevt_process P cfg process processpid ie) in
  (count is_ancestor_item t <= Z.to_nat (ancestors cfg))%nat /\
  (ancestors cfg = 0 -> forallb no_ancestor_list t = true) /\
  (forall i,
     ie = Some i ->
     0 < ancestors cfg ->
     live (chain_from (ie_prev i)) = [] ->
     returned (logevt_process P cfg process processpid ie) = true ->
     exists pre,
       t = pre ++ [DictItem "ancestors"; ListBegin; ListEnd; DictEnd] /\
       forallb no_ancestor_list pre = true).
Proof.
  intros Hmax t. subst t. split; [| split].
  - change (bounded is_ancestor_item
              (logevt_process P cfg process processpid ie)
              (Z.to_nat (ancestors cfg))).
    eapply bounded_le; [bounded_tac |].
    cbn [is_ancestor_item Nat.max Nat.add]. lia.
  - intros Hzero. unfold logevt_process. rewrite Hzero.
    change (0 <? 0) with false.
    match goal with
    | |- forallb _ (calls ?m) = true => change (all no_ancestor_list m)
    end.
    apply all_seq; [reflexivity |].
    apply all_seq; [all_tac |].
    apply all_seq; [all_tac |].
    apply all_seq; [| reflexivity].
    apply all_when_some. intros a.
    apply all_seq; [all_tac |].
    apply all_seq; [reflexivity |].
    apply all_seq; [all_tac | reflexivity].
  - intros i -> Hpos Hlive Hret. apply Z.ltb_lt in Hpos.
    revert Hret. unfold logevt_process. cbn [when_some]. rewrite Hpos.
    cbn [when]. rewrite (ancestors_for_each P cfg _ Hmax), Hlive.
    rewrite firstn_nil. cbn [for_each]. rewrite !seq_assoc.
    intros Hret. split_returned.
    rewrite !calls_seq_pure by assumption.
    repeat first
      [ now (exists [])
      | apply ends_with_all;
        [ match goal with
          | |- forallb _ (calls ?m) = true =>
              change (all no_ancestor_list m); all_tac
          end | ] ].
Qed.

(** With depth 1 on the samples, [ls] has one ancestor entry; [launchd] is
    the end of its chain and gets the empty list. *)
Lemma ancestor_list_limits_witness :
  (count is_ancestor_item
     (calls (logevt_process Sample.platform Sample.config None 0
               (Some Sample.ls))) <= 1)%nat /\
  exists pre,
    calls (logevt_process Sample.platform Sample.config None 0
             (Some Sample.launchd)) =
      pre ++ [DictItem "ancestors"; ListBegin; ListEnd; DictEnd] /\
    forallb no_ancestor_list pre = true.
Proof.
  assert (Hmax : 0 <= ancestors Sample.config <= SIZE_MAX)
    by (unfold SIZE_MAX; simpl; lia).
  split.
  - apply (ancestor_list_limits Sample.platform Sample.config None 0
             (Some Sample.ls) Hmax).
  - pose proof (ancestor_list_limits Sample.platform Sample.config None 0
                  (Some Sample.launchd) Hmax) as (_ & _ & Hempty).
    apply (Hempty Sample.launchd);
      [reflexivity | simpl; lia | reflexivity | reflexivity].
Defined.

Lemma process_size_bounded_witness :
  (List.length
     (calls (logevt_process Sample.platform Sample.config
               (Some (Sample.proc 4242)) 0 (Some Sample.ls))) <= 97)%nat.
Proof.
  apply (process_size_bounded Sample.platform Sample.config
           (Some (Sample.proc 4242)) 0 (Some Sample.ls)).
  unfold SIZE_MAX. simpl. lia.
Defined.

(** ** Socket events *)

(** The address fields of the socket events.  [proto] is emitted unless the
    protocol is 0.  The address and the port of an end go together and are
    emitted exactly when the address is not empty, the port never alone.
    [logevt_socket_listen] never emits a peer; [logevt_socket_accept] and
    [logevt_socket_connect] emit the local end before the peer. *)
Theorem socket_address_fields P cfg :
  (forall so,
     pick socket_keys (calls (logevt_socket_listen P cfg so)) =
     (if sl_protocol so =? 0 then [] else ["proto"]) ++
     endpoint_keys (ipaddr_is_empty P (sl_sock_addr so))
       "sockaddr" "sockport") /\
  (forall so,
     pick socket_keys (calls (logevt_socket_accept P cfg so)) =
     (if so_protocol so =? 0 then [] else ["proto"]) ++
     endpoint_keys (ipaddr_is_empty P (so_sock_addr so))
       "sockaddr" "sockport" ++
     endpoint_keys (ipaddr_is_empty P (so_peer_addr so))
       "peeraddr" "peerport") /\
  (forall so,
     pick socket_keys (calls (logevt_socket_connect P cfg so)) =
     (if so_protocol so =? 0 then [] else ["proto"]) ++
     endpoint_keys (ipaddr_is_empty P (so_sock_addr so))
       "sockaddr" "sockport" ++
     endpoint_keys (ipaddr_is_empty P (so_peer_addr so))
       "peeraddr" "peerport").
Proof.
  split; [| split]; intros so.
  - unfold logevt_socket_listen.
    set (subject := logevt_process _ _ _ _ _).
    rewrite !calls_seq_pure by pure_tac. rewrite !pick_app.
    rewrite (pick_all_avoid (ks := socket_keys)
               (m := logevt_header P (sl_hdr so))) by all_tac.
    rewrite (pick_all_avoid (ks := socket_keys)
               (m := dict_item "subject")) by all_tac.
    rewrite (pick_all_avoid (ks := socket_keys) (m := subject ;; _))
      by all_tac.
    now destruct (sl_protocol so =? 0),
      (ipaddr_is_empty P (sl_sock_addr so)).
  - unfold logevt_socket_accept.
    set (subject := logevt_process _ _ _ _ _).
    rewrite !calls_seq_pure by pure_tac. rewrite !pick_app.
    rewrite (pick_all_avoid (ks := socket_keys)
               (m := logevt_header P (so_hdr so))) by all_tac.
    rewrite (pick_all_avoid (ks := socket_keys)
               (m := dict_item "subject")) by all_tac.
    rewrite (pick_all_avoid (ks := socket_keys) (m := subject ;; _))
      by all_tac.
    now destruct (so_protocol so =? 0),
      (ipaddr_is_empty P (so_sock_addr so)),
      (ipaddr_is_empty P (so_peer_addr so)).
  - unfold logevt_socket_connect.
    set (subject := logevt_process _ _ _ _ _).
    rewrite !calls_seq_pure by pure_tac. rewrite !pick_app.
    rewrite (pick_all_avoid (ks := socket_keys)
               (m := logevt_header P (so_hdr so))) by all_tac.
    rewrite (pick_all_avoid (ks := socket_keys)
               (m := dict_item "subject")) by all_tac.
    rewrite (pick_all_avoid (ks := socket_keys) (m := subject ;; _))
      by all_tac.
    now destruct (so_protocol so =? 0),
      (ipaddr_is_empty P (so_sock_addr so)),
      (ipaddr_is_empty P (so_peer_addr so)).
Qed.

(** ** Service registration without a subject *)

(** With the no-subject flag set, [logevt_launchd_add] renders no process:
    it emits neither the key [subject] nor a pid or credential, reads
    neither the subject nor its image exec, and returns 0 on every event,
    no assertion being reachable. *)
Theorem launchd_add_without_subject P cfg ldadd :
  has_flag (la_flags ldadd) (LAFLAG_NOSUBJECT P) = true ->
  outcome (logevt_launchd_add P cfg ldadd) = Some 0 /\
  pick ("subject" :: "image" :: identity_keys)
       (calls (logevt_launchd_add P cfg ldadd)) = [] /\
  (forall subject subject_image_exec,
     logevt_launchd_add P cfg
       (Build_launchd_add_t (la_hdr ldadd) (la_flags ldadd)
          (la_plist_path ldadd) (la_program_rpath ldadd)
          (la_program_path ldadd) (la_program_argv ldadd)
          subject subject_image_exec) =
     logevt_launchd_add P cfg ldadd).
Proof.
  intros Hflag. unfold logevt_launchd_add.
  cbn [la_hdr la_flags la_plist_path la_program_rpath la_program_path
       la_program_argv la_subject la_subject_image_exec].
  rewrite Hflag. cbn [negb when]. split; [| split].
  - rewrite !outcome_seq_pure by pure_tac. reflexivity.
  - apply pick_all_avoid. all_tac.
  - reflexivity.
Qed.

Lemma launchd_add_without_subject_witness :
  outcome
    (logevt_launchd_add Sample.platform Sample.config
       (Build_launchd_add_t (Sample.header 5) 1
          "/Library/LaunchDaemons/com.example.plist" None
          (Some "/usr/local/bin/exampled")
          (Some ["exampled"; "-d"])
          (Sample.proc 1) (Some Sample.sh_signed_script))) = Some 0.
Proof.
  apply launchd_add_without_subject. reflexivity.
Defined.

(** ** The header of a record *)

(** The envelope of every record holds the values of its own event: the
    schema version [LOGEVT_VERSION], then the time and the code of the header
    of the event being serialized.  These eight calls are issued first,
    whatever happens afterwards. *)
Theorem envelope_values P cfg ev :
  exists rest,
    calls (logevt P cfg ev) =
      [RecordBegin; DictBegin;
       DictItem "version"; ValueUint (LOGEVT_VERSION P);
       DictItem "time"; ValueTimespec (tv (event_header ev));
       DictItem "eventcode"; ValueUint (code (event_header ev))] ++ rest.
Proof.
  destruct ev; cbn [logevt event_header];
    [ unfold logevt_xnumon_ops | unfold logevt_xnumon_stats
    | unfold logevt_image_exec | unfold logevt_process_access
    | unfold logevt_launchd_add | unfold logevt_socket_listen
    | unfold logevt_socket_accept | unfold logevt_socket_connect ];
    rewrite calls_seq_pure by reflexivity; eexists; reflexivity.
Qed.

(** ** Images reconstructed from a pid *)



(** ** Arrays are rendered element by element *)

Lemma list_values_other_app label (a b : trace) :
  forallb (other_label label) a = true ->
  list_values label (a ++ b) = list_values label b.
Proof.
  induction a as [|c a IH]; [reflexivity |].
  simpl. intros H. apply andb_prop in H as [Hc Ha]. specialize (IH Ha).
  destruct c; simpl in *; try exact IH.
  apply negb_true_iff in Hc. now rewrite Hc.
Qed.

Lemma list_values_other label (a : trace) :
  forallb (other_label label) a = true -> list_values label a = [].
Proof.
  intros H. rewrite <- (app_nil_r a). now rewrite list_values_other_app.
Qed.

Lemma list_values_for_each {A} label (l : list A) (value : A -> call)
      (t : trace) :
  list_values label
    (calls (for_each l (fun a => list_item label ;; emit (value a))) ++ t) =
  map value l ++ list_values label t.
Proof.
  induction l as [|a l IH]; [reflexivity |].
  cbn [for_each map]. rewrite calls_seq_pure by reflexivity.
  rewrite calls_seq_pure by reflexivity. rewrite <- !app_assoc.
  cbn [calls list_item emit fst app list_values].
  rewrite String.eqb_refl. cbn [app]. now rewrite IH.
Qed.

Ltac other_tac :=
  match goal with
  | |- forallb (other_label ?l) (calls ?m) = true =>
      change (all (other_label l) m); all_tac
  end.

(** The argument and environment vectors of an executed image come out
    whole and in order: the values under the list label [arg] are the
    elements of [argv], those under [var] the elements of [envv], one string
    each.  A NULL array has no key at all, while an empty array has its key
    and an empty list. *)
Theorem image_exec_vectors P cfg ie :
  list_values "arg" (calls (logevt_image_exec P cfg ie)) =
    map ValueString (elements (ie_argv ie)) /\
  list_values "var" (calls (logevt_image_exec P cfg ie)) =
    map ValueString (elements (ie_envv ie)) /\
  pick ["argv"; "env"; "cwd"] (calls (logevt_image_exec P cfg ie)) =
    optional_key (ie_argv ie) "argv" ++ optional_key (ie_envv ie) "env" ++
    optional_key (ie_cwd ie) "cwd".
Proof.
  unfold logevt_image_exec.
  set (subject := logevt_process _ _ _ _ _).
  rewrite !calls_seq_pure by pure_tac.
  split; [| split].
  - rewrite !list_values_other_app by other_tac.
    destruct (ie_argv ie) as [argv|]; cbn [when_some elements map].
    + rewrite !calls_seq_pure by pure_tac. rewrite <- !app_assoc.
      rewrite !list_values_other_app by other_tac.
      change (fun arg : string => list_item "arg" ;; value_string arg)
        with (fun arg : string => list_item "arg" ;; emit (ValueString arg)).
      rewrite list_values_for_each.
      rewrite !list_values_other_app by other_tac.
      rewrite list_values_other; [apply app_nil_r |].
      subst subject. other_tac.
    + rewrite !list_values_other_app by other_tac.
      apply list_values_other. subst subject. other_tac.
  - rewrite !list_values_other_app by other_tac.
    destruct (ie_envv ie) as [envv|]; cbn [when_some elements map].
    + rewrite !calls_seq_pure by pure_tac. rewrite <- !app_assoc.
      rewrite !list_values_other_app by other_tac.
      change (fun var : string => list_item "var" ;; value_string var)
        with (fun var : string => list_item "var" ;; emit (ValueString var)).
      rewrite list_values_for_each.
      rewrite !list_values_other_app by other_tac.
      rewrite list_values_other; [apply app_nil_r |].
      subst subject. other_tac.
    + rewrite !list_values_other_app by other_tac.
      apply list_values_other. subst subject. other_tac.
  - rewrite !pick_app.
    rewrite (pick_all_avoid (ks := ["argv"; "env"; "cwd"])
               (m := logevt_header P (ie_hdr ie))) by all_tac.
    rewrite (pick_all_avoid (ks := ["argv"; "env"; "cwd"])
               (m := when _ _)) by all_tac.
    rewrite (pick_all_avoid (ks := ["argv"; "env"; "cwd"])
               (m := dict_item "image")) by all_tac.
    rewrite (pick_all_avoid (ks := ["argv"; "env"; "cwd"])
               (m := logevt_image_exec_image P cfg ie)) by all_tac.
    rewrite (pick_all_avoid (ks := ["argv"; "env"; "cwd"])
               (m := when_some (ie_script ie) _)) by all_tac.
    rewrite (pick_all_avoid (ks := ["argv"; "env"; "cwd"])
               (m := dict_item "subject")) by all_tac.
    rewrite (pick_all_avoid (ks := ["argv"; "env"; "cwd"])
               (m := subject ;; _)) by (subst subject; all_tac).
    destruct (ie_argv ie), (ie_envv ie), (ie_cwd ie);
      cbn [when_some optional_key];
      rewrite ?calls_seq_pure by pure_tac; rewrite ?pick_app;
      rewrite ?(pick_all_avoid (ks := ["argv"; "env"; "cwd"])
                  (m := for_each _ _)) by all_tac;
      reflexivity.
Qed.

(** The program arguments of a launchd job come out whole and in order
    under the list label [arg], whatever subject is attached; a job without
    [program_argv] has no [argv] key. *)
Theorem launchd_program_vector P cfg ldadd :
  list_values "arg" (calls (logevt_launchd_add P cfg ldadd)) =
    map ValueString (elements (la_program_argv ldadd)) /\
  (la_program_argv ldadd = None ->
   ~ In (DictItem "argv") (calls (logevt_launchd_add P cfg ldadd))).
Proof.
  split.
  - unfold logevt_launchd_add.
    set (subject := when _ _).
    assert (Hsubject :
              all (other_label "arg") (subject ;; logevt_footer ;; ret 0))
      by (subst subject; all_tac).
    rewrite !calls_seq_pure by pure_tac.
    rewrite !list_values_other_app by other_tac.
    destruct (la_program_argv ldadd) as [argv|]; cbn [when_some elements map].
    + rewrite !calls_seq_pure by pure_tac. rewrite <- !app_assoc.
      rewrite !list_values_other_app by other_tac.
      change (fun arg : string => list_item "arg" ;; value_string arg)
        with (fun arg : string => list_item "arg" ;; emit (ValueString arg)).
      rewrite list_values_for_each.
      rewrite !list_values_other_app by other_tac.
      rewrite list_values_other by exact Hsubject. apply app_nil_r.
    + rewrite !list_values_other_app by other_tac.
      apply list_values_other. exact Hsubject.
  - intros Hnone. apply avoids_not_in.
    change (all (avoids ["argv"]) (logevt_launchd_add P cfg ldadd)).
    unfold logevt_launchd_add. rewrite Hnone. cbn [when_some]. all_tac.
Qed.

Lemma launchd_program_vector_witness :
  ~ In (DictItem "argv")
      (calls (logevt_launchd_add Sample.platform Sample.config
                (Build_launchd_add_t (Sample.header 5) 0
                   "/Library/LaunchDaemons/com.example.plist" None
                   (Some "/usr/local/bin/exampled") None
                   (Sample.proc 1) (Some Sample.sh)))).
Proof.
  apply launchd_program_vector. reflexivity.
Defined.

(** ** The two records of the agent itself *)

Lemma dict_keys_for_each_items {A} label (l : list A) (value : A -> call) :
  (forall a, dict_keys [value a] = []) ->
  dict_keys
    (calls (for_each l (fun a => list_item label ;; emit (value a)))) = [].
Proof.
  intros Hvalue. induction l as [|a l IH]; [reflexivity |].
  cbn [for_each]. rewrite !calls_seq_pure by reflexivity.
  rewrite !dict_keys_app, IH.
  change (calls (emit (value a))) with [value a]. now rewrite Hvalue.
Qed.

Lemma count_for_each_items {A} label (l : list A) (value : A -> call) :
  (forall a, is_list_item (value a) = false) ->
  count is_list_item
    (calls (for_each l (fun a => list_item label ;; emit (value a)))) =
  List.length l.
Proof.
  intros Hvalue. induction l as [|a l IH]; [reflexivity |].
  cbn [for_each]. rewrite !calls_seq_pure by reflexivity.
  rewrite !count_app, IH.
  change (calls (emit (value a))) with [value a].
  rewrite count_cons, Hvalue. reflexivity.
Qed.

Lemma stats_counters_and_keys :
  exists keys, forall P st,
    list_values "event" (calls (logevt_xnumon_stats P st)) =
      map ValueUint (lq_counts st) /\
    count is_list_item (calls (logevt_xnumon_stats P st)) =
      List.length (lq_counts st) /\
    dict_keys (calls (logevt_xnumon_stats P st)) = keys.
Proof.
  eexists. intros P st. unfold logevt_xnumon_stats.
  rewrite !calls_seq_pure by pure_tac.
  change (fun count : Z => list_item "event" ;; value_uint count)
    with (fun count : Z => list_item "event" ;; emit (ValueUint count)).
  split; [| split].
  - rewrite !list_values_other_app by reflexivity.
    rewrite list_values_for_each.
    rewrite !list_values_other_app by reflexivity.
    apply app_nil_r.
  - rewrite !count_app.
    rewrite count_for_each_items by reflexivity.
    cbn. lia.
  - rewrite !dict_keys_app.
    rewrite dict_keys_for_each_items by reflexivity.
    lazy. reflexivity.
Qed.

(** The statistics record reports the per-event counters of the log queue
    whole and in order, one unsigned value per counter under the list label
    [event]; these are its only list items, and the counters do not change
    its keys, which are the same for any two inputs. *)
Theorem stats_event_counters P st :
  list_values "event" (calls (logevt_xnumon_stats P st)) =
    map ValueUint (lq_counts st) /\
  count is_list_item (calls (logevt_xnumon_stats P st)) =
    List.length (lq_counts st) /\
  forall P' st',
    dict_keys (calls (logevt_xnumon_stats P st)) =
    dict_keys (calls (logevt_xnumon_stats P' st')).
Proof.
  destruct stats_counters_and_keys as [keys H].
  destruct (H P st) as (Hvalues & Hcount & Hkeys).
  split; [exact Hvalues | split; [exact Hcount |]].
  intros P' st'. destruct (H P' st') as (_ & _ & Hkeys').
  now rewrite Hkeys, Hkeys'.
Qed.

Lemma ops_shape :
  exists keys size, forall P cfg ops,
    dict_keys (calls (logevt_xnumon_ops P cfg ops)) = keys /\
    List.length (calls (logevt_xnumon_ops P cfg ops)) = size.
Proof.
  do 2 eexists. intros P cfg ops. unfold logevt_xnumon_ops.
  destruct (cfg_id cfg), (ancestors cfg <? SIZE_MAX),
    (logoneline cfg =? -1), (logfile cfg); split; lazy; reflexivity.
Qed.

(** The record written when the agent starts or stops has one shape: its
    keys and its number of calls are the same for every configuration.  A
    setting that is not set ([id], [logfile], [logoneline]) is written as a
    value under its key and never left out, and so is the unlimited
    ancestor depth. *)
Theorem ops_shape_fixed P cfg ops P' cfg' ops' :
  dict_keys (calls (logevt_xnumon_ops P cfg ops)) =
    dict_keys (calls (logevt_xnumon_ops P' cfg' ops')) /\
  List.length (calls (logevt_xnumon_ops P cfg ops)) =
    List.length (calls (logevt_xnumon_ops P' cfg' ops')) /\
  outcome (logevt_xnumon_ops P cfg ops) = Some 0.
Proof.
  destruct ops_shape as (keys & size & Hshape).
  destruct (Hshape P cfg ops) as [-> ->].
  destruct (Hshape P' cfg' ops') as [-> ->].
  split; [reflexivity | split; [reflexivity |]].
  unfold logevt_xnumon_ops.
  destruct (cfg_id cfg), (ancestors cfg <? SIZE_MAX),
    (logoneline cfg =? -1), (logfile cfg); reflexivity.
Qed.

(** ** The keys of a record do not depend on what is nested in it *)

Lemma keys_at_accept (t : trace) :
  forall st st' rest,
    accept st t = Some st' ->
    keys_at (S (nesting (fst st))) (t ++ rest) =
    keys_at (S (nesting (fst st'))) rest.
Proof.
  induction t as [|c t IH]; intros [open due] st' rest H.
  - cbn [accept] in H. injection H as <-. reflexivity.
  - cbn [accept] in H. destruct (step (open, due) c) as [st1|] eqn:Hstep;
      [| discriminate].
    rewrite <- (IH _ _ rest H). clear IH H.
    destruct c, due; cbn [step] in Hstep;
      try discriminate;
      try (destruct open as [|[] ?]; try discriminate);
      try (destruct open as [|[] ?]; try discriminate);
      injection Hstep as <-; reflexivity.
Qed.

Lemma keys_run_value {A} (m : M A) :
  exec m ([], true) ([], false) -> keys_run m 1 [] 1.
Proof.
  intros [Hm _] Hret rest.
  exact (keys_at_accept _ _ rest (Hm Hret)).
Qed.

Lemma keys_run_seq {B} (m : M unit) (k : M B) d ks1 d1 ks2 d2 :
  keys_run m d ks1 d1 -> keys_run k d1 ks2 d2 ->
  keys_run (m ;; k) d (ks1 ++ ks2) d2.
Proof.
  intros Hm Hk Hret rest. apply returned_seq_inv in Hret as [Hrm Hrk].
  rewrite calls_seq_pure by exact Hrm.
  rewrite <- app_assoc, (Hm Hrm), (Hk Hrk). apply app_assoc.
Qed.

Lemma keys_run_eq {A} (m : M A) d ks ks' d1 d1' :
  keys_run m d ks d1 -> ks = ks' -> d1 = d1' -> keys_run m d ks' d1'.
Proof. now intros H <- <-. Qed.

Lemma keys_run_item k d :
  keys_run (dict_item k) d (if Nat.eqb d 1 then [k] else []) d.
Proof. intros _ rest. cbn. now destruct (Nat.eqb d 1). Qed.

Lemma keys_run_open c d :
  (c = DictBegin \/ c = ListBegin) -> keys_run (emit c) d [] (S d).
Proof. intros [-> | ->] _ rest; reflexivity. Qed.

Lemma keys_run_close c d :
  (c = DictEnd \/ c = ListEnd) -> keys_run (emit c) (S d) [] d.
Proof. intros [-> | ->] _ rest; reflexivity. Qed.

Lemma keys_run_scalar c d :
  is_flat c = true -> dict_keys [c] = [] ->
  keys_run (emit c) d [] d.
Proof. intros Hflat Hkey _ rest. now destruct c. Qed.

Lemma keys_run_ret {A} (a : A) d : keys_run (ret a) d [] d.
Proof. intros _ rest. reflexivity. Qed.

Lemma keys_run_assert e d : keys_run (assert e) d [] d.
Proof.
  intros Hret rest. destruct e; [reflexivity | discriminate].
Qed.

Lemma keys_run_when c (m : M unit) d ks :
  keys_run m d ks d -> keys_run (when c m) d (if c then ks else []) d.
Proof. destruct c; [trivial | intros _; apply keys_run_ret]. Qed.

Lemma keys_run_when_some {A} (o : option A) (f : A -> M unit) d ks :
  (forall a, keys_run (f a) d ks d) ->
  keys_run (when_some o f) d (match o with Some _ => ks | None => [] end) d.
Proof. destruct o; [simpl; trivial | intros _; apply keys_run_ret]. Qed.

Lemma keys_run_for_each {A} (l : list A) (body : A -> M unit) d :
  (forall a, keys_run (body a) d [] d) -> keys_run (for_each l body) d [] d.
Proof.
  intros H. induction l as [|a l IH]; [apply keys_run_ret |].
  cbn [for_each]. apply (keys_run_seq (H a) IH).
Qed.

Ltac keys_tac :=
  lazymatch goal with
  | |- keys_run (_ ;; _) _ _ _ => eapply keys_run_seq; [keys_tac | keys_tac]
  | |- keys_run (when _ _) _ _ _ =>
      eapply keys_run_when;
      eapply keys_run_eq; [keys_tac | reflexivity | reflexivity]
  | |- keys_run (when_some _ _) _ _ _ =>
      eapply keys_run_when_some; intros;
      eapply keys_run_eq; [keys_tac | reflexivity | reflexivity]
  | |- keys_run (for_each _ _) _ _ _ =>
      apply keys_run_for_each; intros;
      eapply keys_run_eq; [keys_tac | reflexivity | reflexivity]
  | |- keys_run (if ?c then _ else _) _ _ _ =>
      destruct c; apply keys_run_scalar; reflexivity
  | |- keys_run (match ?o with Some _ => _ | None => _ end) _ _ _ =>
      destruct o; apply keys_run_scalar; reflexivity
  | |- keys_run (assert _) _ _ _ => apply keys_run_assert
  | |- keys_run (ret _) _ _ _ => apply keys_run_ret
  | |- keys_run (logevt_header _ _) _ _ _ => unfold logevt_header; keys_tac
  | |- keys_run logevt_footer _ _ _ => unfold logevt_footer; keys_tac
  | |- keys_run (logevt_process _ _ _ _ _) _ _ _ =>
      apply keys_run_value, exec_process
  | |- keys_run (logevt_image_exec_image _ _ _) _ _ _ =>
      apply keys_run_value, exec_image_exec_image
  | |- keys_run (dict_item _) _ _ _ => apply keys_run_item
  | |- keys_run dict_begin _ _ _ => apply keys_run_open; now left
  | |- keys_run list_begin _ _ _ => apply keys_run_open; now right
  | |- keys_run dict_end _ _ _ => apply keys_run_close; now left
  | |- keys_run list_end _ _ _ => apply keys_run_close; now right
  | |- keys_run _ _ _ _ => apply keys_run_scalar; reflexivity
  end.

Lemma keys_run_logevt P cfg ev :
  keys_run (logevt P cfg ev) 0
    (["version"; "time"; "eventcode"] ++ record_keys P ev) 0.
Proof.
  destruct ev as [ops | st | ie | pa | ldadd | so | so | so];
    cbn [logevt record_keys].
  - unfold logevt_xnumon_ops.
    eapply keys_run_eq; [keys_tac | reflexivity | reflexivity].
  - unfold logevt_xnumon_stats.
    eapply keys_run_eq; [keys_tac | reflexivity | reflexivity].
  - unfold logevt_image_exec, pidlookup.
    eapply keys_run_eq; [keys_tac | | reflexivity].
    destruct (has_flag _ _), (ie_argv ie), (ie_envv ie), (ie_cwd ie),
      (ie_script ie); reflexivity.
  - unfold logevt_process_access.
    eapply keys_run_eq; [keys_tac | reflexivity | reflexivity].
  - unfold logevt_launchd_add.
    eapply keys_run_eq; [keys_tac | | reflexivity].
    destruct (has_flag _ _), (la_program_rpath ldadd),
      (la_program_path ldadd), (la_program_argv ldadd); reflexivity.
  - unfold logevt_socket_listen.
    eapply keys_run_eq; [keys_tac | | reflexivity].
    destruct (sl_protocol so =? 0), (ipaddr_is_empty _ _); reflexivity.
  - unfold logevt_socket_accept.
    eapply keys_run_eq; [keys_tac | | reflexivity].
    destruct (so_protocol so =? 0), (ipaddr_is_empty P (so_sock_addr so)),
      (ipaddr_is_empty P (so_peer_addr so)); reflexivity.
  - unfold logevt_socket_connect.
    eapply keys_run_eq; [keys_tac | | reflexivity].
    destruct (so_protocol so =? 0), (ipaddr_is_empty P (so_sock_addr so)),
      (ipaddr_is_empty P (so_peer_addr so)); reflexivity.
Qed.

(** The keys of a record that was written in full are the three keys of the
    header followed by those of the parts of the event that are present:
    nothing a nested process, image, list or dictionary holds, and no
    setting of the configuration, adds or removes a key of the record
    itself. *)
Theorem record_keys_by_event P cfg ev :
  returned (logevt P cfg ev) = true ->
  own_keys (calls (logevt P cfg ev)) =
    ["version"; "time"; "eventcode"] ++ record_keys P ev.
Proof.
  intros Hret. unfold own_keys.
  rewrite <- (app_nil_r (calls (logevt P cfg ev))).
  rewrite (keys_run_logevt P cfg ev Hret []). apply app_nil_r.
Qed.

Lemma record_keys_by_event_witness :
  own_keys (calls (logevt Sample.platform Sample.config
                     (EvImageExec Sample.python))) =
    ["version"; "time"; "eventcode"] ++
    record_keys Sample.platform (EvImageExec Sample.python).
Proof.
  apply record_keys_by_event. reflexivity.
Defined.
